(** * A shallow embedding of the crossword dictionary index and slot extractor

    Sources: [src/dictionary.cpp] (namespace [utils], class [Dictionary])
    and [src/crossword.cpp] (class [crossword]).

    C++ [std::string]s are Rocq [string]s; a [char] is an [ascii] whose
    unsigned byte value ([uint8_t(c)]) is [byte_of c].  Integer keys
    ([uint64_t]) and word identifiers ([uint16_t]) are [Z].  The
    [std::unordered_map]s of the class are stdpp [gmap]s; the array
    [_fastSearch[LONGEST_WORD]] is a list whose out-of-range access is
    reported as undefined behaviour ([None]). *)

From Stdlib Require Import ZArith Lia Permutation Ascii String.
From stdpp Require Import base gmap strings list.
Open Scope Z_scope.

(* ------------------------------------------------------------------ *)
(** ** Bytes *)

Definition byte_of (c : ascii) : Z := Z.of_N (N_of_ascii c).

(** Conversion of an [int] back to [char]: the value is taken modulo 256. *)
Definition char_of (z : Z) : ascii := ascii_of_N (Z.to_N (z mod 256)).

(* ------------------------------------------------------------------ *)
(** ** The Levenshtein routine, [Dictionary::levenstein] *)

Module Lev.

(** One row [dp[i][*]] for i >= 1, computed from the previous row [prev]
    = [dp[i-1][*]].  [left] is [dp[i][j-1]]; the walk over [b] is the
    inner [for j] loop for j >= 1. *)
Fixpoint row_tail (ai : ascii) (b : string) (prev : list Z) (left : Z) : list Z :=
  match b, prev with
  | String bj b', pdiag :: ((pup :: _) as prev') =>
      let v := Z.min (pup + 1) (left + 1) in
      let v := Z.min v (pdiag + (if Ascii.eqb ai bj then 0 else 1)) in
      v :: row_tail ai b' prev' v
  | _, _ => []
  end.

(** [dp[i][0] = 0] (since [min(i, 0) == 0]) followed by the rest. *)
Definition next_row (ai : ascii) (b : string) (prev : list Z) : list Z :=
  0 :: row_tail ai b prev 0.

Fixpoint rows (a b : string) (prev : list Z) : list Z :=
  match a with
  | EmptyString => prev
  | String ai a' => rows a' b (next_row ai b prev)
  end.

(** Row 0 is all zeros ([min(0, j) == 0]); the answer is
    [dp[a.length()][b.length()]]. *)
Definition levenstein (a b : string) : Z :=
  nth (String.length b) (rows a b (repeat 0 (S (String.length b)))) 0.

(** The textbook Levenshtein distance, following the spec's words
    (base row and column hold the index), for comparison. *)
Fixpoint classic_row_tail (ai : ascii) (b : string) (prev : list Z) (left : Z) : list Z :=
  match b, prev with
  | String bj b', pdiag :: ((pup :: _) as prev') =>
      let v := Z.min (Z.min (pup + 1) (left + 1))
                     (pdiag + (if Ascii.eqb ai bj then 0 else 1)) in
      v :: classic_row_tail ai b' prev' v
  | _, _ => []
  end.

Fixpoint classic_rows (i : Z) (a b : string) (prev : list Z) : list Z :=
  match a with
  | EmptyString => prev
  | String ai a' =>
      classic_rows (i + 1) a' b (i :: classic_row_tail ai b prev i)
  end.

Definition classic_levenshtein (a b : string) : Z :=
  nth (String.length b)
      (classic_rows 1 a b (map Z.of_nat (seq 0 (S (String.length b))))) 0.

End Lev.

(* ------------------------------------------------------------------ *)
(** ** The dictionary, [utils::Dictionary] *)

Section Model.

(** Constants of the class declared in [dictionary.hpp], which is not
    part of the sources: the number of entries of [_fastSearch] and the
    code of the first lower-case Cyrillic letter.  Every result below
    holds for every value of them. *)
Variable LONGEST_WORD : nat.
Variable CYRILLIC_A : Z.

(** *** Text normalisation *)

(** [char Dictionary::toupper(char c)] *)
Definition toupper_c (c : ascii) : ascii :=
  if CYRILLIC_A <=? byte_of c then char_of (byte_of c - 32) else c.

(** [std::string Dictionary::toupper(std::string)] *)
Fixpoint toupper (w : string) : string :=
  match w with
  | EmptyString => EmptyString
  | String c w' => String (toupper_c c) (toupper w')
  end.

(** [bool Dictionary::isalpha(char c)] *)
Definition isalpha (c : ascii) : bool := CYRILLIC_A - 32 <=? byte_of c.

(** [Dictionary::dosToWinCode]: bytes in [CYRILLIC_A-96, CYRILLIC_A-32)
    are moved up by 64 ([winWord[i] += 64] on a [char]). *)
Fixpoint dosToWinCode (w : string) : string :=
  match w with
  | EmptyString => EmptyString
  | String c w' =>
      let c' := if (CYRILLIC_A - 96 <=? byte_of c) && (byte_of c <? CYRILLIC_A - 32)
                then char_of (byte_of c + 64) else c in
      String c' (dosToWinCode w')
  end.

(** [Dictionary::cleanString]: keeps the alphabetic bytes, in order. *)
Fixpoint cleanString (w : string) : string :=
  match w with
  | EmptyString => EmptyString
  | String c w' => if isalpha c then String c (cleanString w') else cleanString w'
  end.

(** The canonical key of a raw word, as in [loadDictionary]:
    [toupper(cleanString(dosToWinCode(nextWord)))]. *)
Definition canonical (raw : string) : string := toupper (cleanString (dosToWinCode raw)).

(** *** Keys *)

(** Modelled from the spec: [ANY_CHAR], the unknown-placeholder byte of
    a pattern, is declared in the missing header.  The spec's query step
    packs "only the positions that are concrete (letters), packed the same
    way as above", where a position left out contributes a zero byte; the
    code packs every position of the pattern with [getKey(pattern)], which
    does that exactly when the placeholder is the byte 0. *)
Definition ANY_CHAR : ascii := Ascii.ascii_of_nat 0.

(** [word[t]] for [t < word.size()] ([unsigned] byte value). *)
Definition char_at (w : string) (t : nat) : ascii :=
  match String.get t w with Some c => c | None => Ascii.ascii_of_nat 0 end.

Definition byte_at (w : string) (t : nat) : Z := byte_of (char_at w t).

(** The [switch (word.size())] with fall-through: entering at case
    [min(size, 6)] (the [default] label sits on case 6), the cases
    [n-1, ..., 0] each or one term into the key. *)
Fixpoint fall (term : nat -> Z) (n : nat) (key : Z) : Z :=
  match n with
  | O => key
  | S n' => fall term n' (Z.lor key (term n'))
  end.

(** [uint64_t Dictionary::getKey(uint32_t mask, const std::string& word)] *)
Definition getKeyMask (mask : Z) (word : string) : Z :=
  fall (fun t => if negb (Z.land (Z.shiftr mask (Z.of_nat t)) 1 =? 0)
                 then Z.shiftl (byte_at word t) (8 * Z.of_nat t) else 0)
       (Nat.min (String.length word) 6) 0.

(** [uint64_t Dictionary::getKey(const std::string& word)] *)
Definition getKey (word : string) : Z :=
  fall (fun t => Z.shiftl (byte_at word t) (8 * Z.of_nat t))
       (Nat.min (String.length word) 6) 0.

(** *** State *)

Record dict := mkDict {
  allWords : list string;                  (* _allWords *)
  dirtyDict : gmap string string;          (* _dirtyDict *)
  explanationDict : gmap string string;    (* _explanationDict *)
  cacheSearchMap : gmap string (list Z);   (* _cacheSearchMap (owned vectors) *)
  fastSearch : list (gmap Z (list Z))      (* _fastSearch[LONGEST_WORD] *)
}.

(** [Dictionary::reset] *)
Definition reset_dict : dict :=
  mkDict [] ∅ ∅ ∅ (repeat ∅ LONGEST_WORD).

(** [std::unordered_map::emplace]: no effect when the key is present. *)
Definition emplace (k v : string) (m : gmap string string) : gmap string string :=
  match m !! k with Some _ => m | None => <[k:=v]> m end.

(** [currentFastSearch[key].push_back(index)] *)
Definition push_back (key idx : Z) (m : gmap Z (list Z)) : gmap Z (list Z) :=
  <[key := default [] (m !! key) ++ [idx]]> m.

(** The loop [for (mask = 0; mask < 64; ++mask)] of [addToFastSearch]
    over [currentFastSearch]. *)
Definition addMasks (newWord : string) (index : Z) (cur : gmap Z (list Z)) : gmap Z (list Z) :=
  fold_left (fun m mask => push_back (getKeyMask (Z.of_nat mask) newWord) index m)
            (seq 0 64) cur.

(** [Dictionary::addToFastSearch]; [_fastSearch[newWord.size()]] out of
    range is undefined behaviour, [None]. *)
Definition addToFastSearch (newWord : string) (index : Z)
    (fs : list (gmap Z (list Z))) : option (list (gmap Z (list Z))) :=
  match fs !! String.length newWord with
  | None => None
  | Some cur => Some (<[String.length newWord := addMasks newWord index cur]> fs)
  end.

(** One iteration of the [while (getline(...))] loop of [loadDictionary]
    on the record [(nextWord, explanation)].  The identifier is
    [_allWords.size()] converted to the [uint16_t] parameter. *)
Definition load_entry (s : dict) (entry : string * string) : option dict :=
  let nextWord := dosToWinCode (fst entry) in
  let explanation := dosToWinCode (snd entry) in
  let clean := toupper (cleanString nextWord) in
  let dd := emplace clean nextWord (dirtyDict s) in
  let ed := emplace clean explanation (explanationDict s) in
  match addToFastSearch clean (Z.of_nat (length (allWords s)) mod 65536) (fastSearch s) with
  | None => None
  | Some fs => Some (mkDict (allWords s ++ [clean]) dd ed (cacheSearchMap s) fs)
  end.

Fixpoint load_entries (s : dict) (es : list (string * string)) : option dict :=
  match es with
  | [] => Some s
  | e :: es' => match load_entry s e with
                | None => None
                | Some s' => load_entries s' es'
                end
  end.

(** [Dictionary::loadDictionary]: the file is [None] when it cannot be
    opened, otherwise the list of its tab-separated records. *)
Definition loadDictionary (file : option (list (string * string))) : option dict :=
  match file with
  | None => Some reset_dict
  | Some es => load_entries reset_dict es
  end.

(** *** Queries *)

(** [Dictionary::getDirty]: [None] stands for the [return "";] branch,
    which returns a reference to a destroyed temporary. *)
Definition getDirty (s : dict) (clean : string) : option string :=
  dirtyDict s !! clean.

(** [Dictionary::getExplanation], as [getDirty]. *)
Definition getExplanation (s : dict) (clean : string) : option string :=
  explanationDict s !! clean.

(** Modelled from the spec: [getFromIndex] (declared in the missing
    header) is the "resolution function from identifier to the canonical
    word string", the entry of the word table [_allWords]. *)
Definition getFromIndex (s : dict) (index : Z) : string :=
  nth (Z.to_nat index) (allWords s) EmptyString.

(** [Dictionary::isPossible] *)
Definition isPossible (pattern contender : string) (filledIndices : list nat) : bool :=
  forallb (fun i => Ascii.eqb (char_at pattern i) (char_at contender i)) filledIndices.

(** The positions of [pattern] holding a concrete letter. *)
Definition filledIndices (pattern : string) : list nat :=
  List.filter (fun i => negb (Ascii.eqb (char_at pattern i) ANY_CHAR))
         (seq 0 (String.length pattern)).

(** [Dictionary::findPossible].  The returned [Pattern] view is the list
    of identifiers it ranges over.  [_fastSearch[pattern.size()][key]]
    default-inserts an empty bucket; an out-of-range [pattern.size()] is
    undefined behaviour, [None]. *)
Definition findPossible (s : dict) (pattern : string) : option (list Z * dict) :=
  match cacheSearchMap s !! pattern with
  | Some cached => Some (cached, s)
  | None =>
      let key := getKey pattern in
      match fastSearch s !! String.length pattern with
      | None => None
      | Some cur =>
          let narrowedWords := default [] (cur !! key) in
          let fs' := <[String.length pattern := <[key := narrowedWords]> cur]> (fastSearch s) in
          let result :=
            if (String.length pattern <=? 6)%nat then narrowedWords
            else List.filter (fun contender =>
                           isPossible pattern (getFromIndex s contender) (filledIndices pattern))
                        narrowedWords in
          Some (result, mkDict (allWords s) (dirtyDict s) (explanationDict s)
                               (<[pattern := result]> (cacheSearchMap s)) fs')
      end
  end.

(** [std::random_shuffle] over every vector of a map: any permutation of
    each value, same keys. *)
Definition perm_map {K} `{Countable K} (m m' : gmap K (list Z)) : Prop :=
  forall k, match m !! k, m' !! k with
            | Some a, Some b => Permutation a b
            | None, None => True
            | _, _ => False
            end.

(** [Dictionary::shuffle]: every bucket of every [_fastSearch[length]],
    [length < LONGEST_WORD], and every cached vector is permuted. *)
Definition shuffle (s s' : dict) : Prop :=
  allWords s' = allWords s /\ dirtyDict s' = dirtyDict s /\
  explanationDict s' = explanationDict s /\
  Forall2 perm_map (fastSearch s) (fastSearch s') /\
  perm_map (cacheSearchMap s) (cacheSearchMap s').

(** The operations a client performs on a loaded dictionary. *)
Inductive step : dict -> dict -> Prop :=
| step_find s p r s' : findPossible s p = Some (r, s') -> step s s'
| step_shuffle s s' : shuffle s s' -> step s s'.

Definition reachable : dict -> dict -> Prop := rtc step.

End Model.

(* ------------------------------------------------------------------ *)
(** ** Configuration, [Dictionary::Dictionary(const std::string&)] *)

Module Config.

Definition DEFAULT_DICTIONARY_PATH : string := "z:/cross/bigdict.txt".
Definition DEFAULT_CONFIG_PATH : string := "z:/cross/config/config.ini".

(** What the constructor sees of the file system: [read_ini path] is the
    parsed property tree, [None] when [boost::property_tree::read_ini]
    throws; [opens path] is the truth value of [std::ifstream{ path }]. *)
Record filesystem := {
  read_ini : string -> option (gmap string string);
  opens : string -> bool
}.

(** The outcome of the configuration part of the constructor: an
    exception escaping it, or the resulting [_dictionaryFilePath] (from
    which [loadDictionary] and [shuffle] continue). *)
Inductive outcome :=
| Throw (what : string)
| Configured (dictionaryFilePath : string).

(** The second [try]: the [dictionary.dictionary_file_path] entry, or the
    default dictionary path when the tree has none. *)
Definition dictionary_path (tree : gmap string string) : string :=
  match tree !! "dictionary.dictionary_file_path" with
  | Some p => p
  | None => DEFAULT_DICTIONARY_PATH
  end.

Definition read_ini_error : string := "read_ini: cannot open file".

Definition ctor_config (fs : filesystem) (configFilePath : string) : outcome :=
  match read_ini fs configFilePath with
  | Some tree => Configured (dictionary_path tree)
  | None =>
      if opens fs DEFAULT_CONFIG_PATH
      then Throw "Could not open the given configuration path nor the default configuration path"
      else match read_ini fs configFilePath with
           | Some tree => Configured (dictionary_path tree)
           | None => Throw read_ini_error
           end
  end.

(** [Dictionary::Dictionary()]: a failing [read_ini] of the default path
    is rethrown ([throw;]). *)
Definition ctor_default (fs : filesystem) : outcome :=
  match read_ini fs DEFAULT_CONFIG_PATH with
  | Some tree => Configured (dictionary_path tree)
  | None => Throw read_ini_error
  end.

End Config.

(* ------------------------------------------------------------------ *)
(** ** Slot extraction, [crossword::loadWords] *)

Module Crossword.

(** The board: [N] rows, [M] columns and the box classifier [isBox(i, j)]
    of the (missing) header [crossword.h]. *)
Record board := { N : nat; M : nat; isBox : nat -> nat -> bool }.

(** A [position]: [hor] and its [letters], each a cell reference
    [&board[i][j]] (the coordinates) with its linear id [i*M + j]. *)
Record position := { hor : bool; letters : list ((nat * nat) * nat) }.

Local Open Scope nat_scope.

(** The inner loop [for (; j < L && open(j); ++j);]. *)
Fixpoint advance (L : nat) (open : nat -> bool) (fuel j : nat) : nat :=
  match fuel with
  | O => j
  | S f => if (j <? L) && open j then advance L open f (S j) else j
  end.

(** The outer loop [for (j = 0; j < L; ++j) { start = j; advance;
    if (j - start <= 1) continue; emit [start, j) }] over one line of
    length [L]: the list of emitted intervals [(start, j)]. *)
Fixpoint runs (L : nat) (open : nat -> bool) (fuel j : nat) : list (nat * nat) :=
  match fuel with
  | O => []
  | S f =>
      if j <? L then
        let e := advance L open L j in
        (if e - j <=? 1 then [] else [(j, e)]) ++ runs L open f (S e)
      else []
  end.

Definition hslot (b : board) (i : nat) (r : nat * nat) : position :=
  {| hor := true;
     letters := map (fun k => ((i, k), i * M b + k)) (seq (fst r) (snd r - fst r)) |}.

Definition vslot (b : board) (j : nat) (r : nat * nat) : position :=
  {| hor := false;
     letters := map (fun k => ((k, j), k * M b + j)) (seq (fst r) (snd r - fst r)) |}.

Definition row_runs (b : board) (i : nat) : list (nat * nat) :=
  runs (M b) (fun k => negb (isBox b i k)) (M b) 0.

Definition col_runs (b : board) (j : nat) : list (nat * nat) :=
  runs (N b) (fun k => negb (isBox b k j)) (N b) 0.

(** [areas] before the final [sort]: the row pass, then the column pass. *)
Definition areas_unsorted (b : board) : list position :=
  concat (map (fun i => map (hslot b i) (row_runs b i)) (seq 0 (N b))) ++
  concat (map (fun j => map (vslot b j) (col_runs b j)) (seq 0 (M b))).

(** [crossword::loadWords]: the comparator [position::sortHelp] is in the
    missing header; [std::sort] leaves a permutation of its input. *)
Definition loadWords (b : board) (areas : list position) : Prop :=
  Permutation (areas_unsorted b) areas.

(** The spec's notion: a maximal run [s, e) of at least 2 open cells of a
    line of length [L]. *)
Definition maximal_run (L : nat) (open : nat -> bool) (s e : nat) : Prop :=
  s + 2 <= e /\ e <= L /\ (forall k, s <= k < e -> open k = true) /\
  (s = 0 \/ open (s - 1) = false) /\ (e = L \/ open e = false).

(** A [rows] x [cols] grid with no box. *)
Definition open_board (rows cols : nat) : board :=
  {| N := rows; M := cols; isBox := fun _ _ => false |}.

End Crossword.


(** A pattern of [L] unknown placeholders. *)
Fixpoint unknowns (L : nat) : string :=
  match L with
  | O => EmptyString
  | S L' => String ANY_CHAR (unknowns L')
  end.

(* ------------------------------------------------------------------ *)
(** ** What the index and the cache hold *)

Section Contents.

Variable LONGEST_WORD : nat.

(** The bucket [_fastSearch[L][k]] when it exists, else empty. *)
Definition bucket (fs : list (gmap Z (list Z))) (L : nat) (k : Z) : list Z :=
  match fs !! L with
  | Some cur => default [] (cur !! k)
  | None => []
  end.

(** Identifier [id] was registered under length [L] and key [k]: it is
    the identifier of the [i]-th word, of length [L], whose key under one
    of the 64 masks is [k]. *)
Definition indexed (aw : list string) (L : nat) (k id : Z) : Prop :=
  exists i w, aw !! i = Some w /\ id = Z.of_nat i mod 65536 /\
    String.length w = L /\
    exists mask, (mask < 64)%nat /\ getKeyMask (Z.of_nat mask) w = k.

(** The identifiers [findPossible] computes for [pattern] over the word
    table [aw]: the bucket of the pattern's key, filtered by
    [isPossible] for patterns longer than 6. *)
Definition answer (aw : list string) (pattern : string) (id : Z) : Prop :=
  indexed aw (String.length pattern) (getKey pattern) id /\
  ((String.length pattern <= 6)%nat \/
   isPossible pattern (nth (Z.to_nat id) aw EmptyString) (filledIndices pattern) = true).

(** The invariant of a loaded dictionary. *)
Record Inv (s : dict) : Prop := {
  inv_len : length (fastSearch s) = LONGEST_WORD;
  inv_words : forall w, In w (allWords s) -> (String.length w < LONGEST_WORD)%nat;
  inv_bucket : forall L k id, (L < LONGEST_WORD)%nat ->
    (In id (bucket (fastSearch s) L k) <-> indexed (allWords s) L k id);
  inv_cache : forall p r, cacheSearchMap s !! p = Some r ->
    (String.length p < LONGEST_WORD)%nat /\
    (forall id, In id r <-> answer (allWords s) p id)
}.

Variable CYRILLIC_A : Z.

(** The record of [es] seen first with canonical key [k]. *)
Definition first_entry (es : list (string * string)) (k : string) : option (string * string) :=
  List.find (fun e => String.eqb (canonical CYRILLIC_A (fst e)) k) es.

End Contents.

(** A file system with only the default configuration file, which names
    a dictionary. *)
Definition only_default_config : Config.filesystem :=
  {| Config.read_ini := fun p =>
       if String.eqb p Config.DEFAULT_CONFIG_PATH
       then Some {[ "dictionary.dictionary_file_path" := "z:/cross/dict.txt" ]}
       else None;
     Config.opens := fun p => String.eqb p Config.DEFAULT_CONFIG_PATH |}.

(* ------------------------------------------------------------------ *)
(** ** Example data *)

(** A string from its byte codes. *)
Definition of_bytes (l : list Z) : string :=
  fold_right (fun z w => String (char_of z) w) EmptyString l.

(** Code page 1251: [CYRILLIC_A] is 224 (lower-case a); 202, 206, 210
    spell upper-case KOT and 234, 238, 242 lower-case kot. *)
Definition ex_CYRILLIC_A : Z := 224.
Definition ex_LONGEST_WORD : nat := 10.
Definition ex_KOT : string := of_bytes [202; 206; 210].
Definition ex_kot : string := of_bytes [234; 238; 242].
Definition ex_DA : string := of_bytes [196; 192].

(** A dictionary file of two records. *)
Definition ex_entries : list (string * string) :=
  [(ex_KOT, "cat"); (ex_DA, "yes")].

(** A dictionary file whose two records have the same canonical key. *)
Definition ex_dup_entries : list (string * string) :=
  [(ex_kot, "first"); (ex_KOT, "second")].

(** The dictionaries loaded from them. *)
Definition ex_dict : dict :=
  match loadDictionary ex_LONGEST_WORD ex_CYRILLIC_A (Some ex_entries) with
  | Some s => s
  | None => reset_dict ex_LONGEST_WORD
  end.

Definition ex_dup_dict : dict :=
  match loadDictionary ex_LONGEST_WORD ex_CYRILLIC_A (Some ex_dup_entries) with
  | Some s => s
  | None => reset_dict ex_LONGEST_WORD
  end.

(** Two patterns of length 2: both unknown, and the first one fixed. *)
Definition ex_any2 : string := String ANY_CHAR (String ANY_CHAR EmptyString).
Definition ex_D_any : string := String (char_of 196) (String ANY_CHAR EmptyString).

(* ------------------------------------------------------------------ *)
(** ** Bit-level facts about the packed keys *)

Lemma byte_of_range (c : ascii) : 0 <= byte_of c < 256.
Proof.
  unfold byte_of. pose proof (N_ascii_bounded c). lia.
Qed.

Lemma char_of_byte_of (c : ascii) : char_of (byte_of c) = c.
Proof.
  unfold char_of. pose proof (byte_of_range c).
  rewrite Z.mod_small by lia. unfold byte_of.
  rewrite N2Z.id. apply ascii_N_embedding.
Qed.


Lemma mask_bit_testbit (m : Z) (t : nat) :
  negb (Z.land (Z.shiftr m (Z.of_nat t)) 1 =? 0) = Z.testbit m (Z.of_nat t).
Proof.
  change 1 with (Z.ones 1) at 1. rewrite Z.land_ones by lia.
  change (2 ^ 1) with 2. rewrite Zmod_odd.
  replace (Z.testbit m (Z.of_nat t)) with (Z.testbit (Z.shiftr m (Z.of_nat t)) 0)
    by (rewrite Z.shiftr_spec by lia; f_equal; lia).
  rewrite Z.bit0_odd. destruct (Z.odd _); reflexivity.
Qed.

Lemma fall_ext (f g : nat -> Z) n acc :
  (forall t, (t < n)%nat -> f t = g t) -> fall f n acc = fall g n acc.
Proof.
  revert acc. induction n as [|n IH]; intros acc Hfg; simpl; [reflexivity|].
  rewrite Hfg by lia. apply IH. intros t Ht. apply Hfg. lia.
Qed.

Lemma fall_testbit (term : nat -> Z) n acc x :
  Z.testbit (fall term n acc) x =
  Z.testbit acc x || existsb (fun t => Z.testbit (term t) x) (seq 0 n).
Proof.
  revert acc. induction n as [|n IH]; intros acc.
  - simpl. now rewrite orb_false_r.
  - cbn [fall]. rewrite IH, Z.lor_spec, seq_S, existsb_app. simpl.
    destruct (Z.testbit acc x), (Z.testbit (term n) x),
             (existsb _ (seq 0 n)); reflexivity.
Qed.

Lemma existsb_ext_eq {A} (f g : A -> bool) (l : list A) :
  (forall a, f a = g a) -> existsb f l = existsb g l.
Proof. intros Hfg. induction l as [|a l IH]; simpl; [reflexivity|]. now rewrite Hfg, IH. Qed.

Lemma existsb_seq_at (f : nat -> bool) (y : Z) n :
  existsb (fun t => (Z.of_nat t =? y) && f t) (seq 0 n) =
  ((0 <=? y) && (y <? Z.of_nat n)) && f (Z.to_nat y).
Proof.
  induction n as [|n IH].
  - cbn [seq existsb]. change (Z.of_nat 0) with 0.
    destruct (Z.leb_spec 0 y), (Z.ltb_spec y 0); try reflexivity; lia.
  - rewrite seq_S, existsb_app, IH. cbn [existsb Nat.add]. rewrite orb_false_r.
    destruct (Z.eqb_spec (Z.of_nat n) y) as [<-|Hne].
    + rewrite Nat2Z.id, Z.ltb_irrefl.
      replace (Z.of_nat n <? Z.of_nat (S n)) with true by (symmetry; apply Z.ltb_lt; lia).
      replace (0 <=? Z.of_nat n) with true by (symmetry; apply Z.leb_le; lia).
      destruct (f n); reflexivity.
    + simpl. rewrite orb_false_r.
      destruct (Z.ltb_spec y (Z.of_nat n)), (Z.ltb_spec y (Z.of_nat (S n)));
        try reflexivity; try lia.
Qed.

Lemma shiftl_byte_testbit (b : Z) (t : nat) (x : Z) :
  0 <= b < 256 -> 0 <= x ->
  Z.testbit (Z.shiftl b (8 * Z.of_nat t)) x =
  (Z.of_nat t =? x / 8) && Z.testbit b (x mod 8).
Proof.
  intros Hb Hx. rewrite Z.shiftl_spec by lia.
  pose proof (Z.div_mod x 8 ltac:(lia)). pose proof (Z.mod_pos_bound x 8 ltac:(lia)).
  destruct (Z.eqb_spec (Z.of_nat t) (x / 8)) as [Ht|Ht]; simpl.
  - f_equal. lia.
  - destruct (Z.ltb_spec (x - 8 * Z.of_nat t) 0).
    + apply Z.testbit_neg_r. lia.
    + rewrite <- (Z.mod_small b (2 ^ 8)) by (simpl; lia).
      apply Z.mod_pow2_bits_high. nia.
Qed.

Lemma getKeyMask_testbit (m : Z) (w : string) (x : Z) :
  0 <= x ->
  Z.testbit (getKeyMask m w) x =
  ((0 <=? x / 8) && (x / 8 <? Z.of_nat (Nat.min (String.length w) 6))) &&
  (Z.testbit m (x / 8) && Z.testbit (byte_at w (Z.to_nat (x / 8))) (x mod 8)).
Proof.
  intros Hx. unfold getKeyMask. rewrite fall_testbit, Z.testbit_0_l. simpl.
  rewrite (existsb_ext_eq _
    (fun t => (Z.of_nat t =? x / 8) &&
              (Z.testbit m (Z.of_nat t) && Z.testbit (byte_at w t) (x mod 8)))).
  - rewrite existsb_seq_at. rewrite Z2Nat.id by (apply Z.div_pos; lia). reflexivity.
  - intros t. rewrite mask_bit_testbit.
    destruct (Z.testbit m (Z.of_nat t)).
    + rewrite shiftl_byte_testbit by (unfold byte_at; auto using byte_of_range).
      simpl. destruct (_ =? _), (Z.testbit _ _); reflexivity.
    + rewrite Z.testbit_0_l. destruct (_ =? _); reflexivity.
Qed.

Lemma getKey_mask63 (w : string) : getKey w = getKeyMask 63 w.
Proof.
  unfold getKey, getKeyMask. apply fall_ext. intros t Ht.
  rewrite mask_bit_testbit.
  destruct t as [|[|[|[|[|[|t]]]]]]; try reflexivity; lia.
Qed.

Lemma getKey_testbit (w : string) (x : Z) :
  0 <= x ->
  Z.testbit (getKey w) x =
  ((0 <=? x / 8) && (x / 8 <? Z.of_nat (Nat.min (String.length w) 6))) &&
  Z.testbit (byte_at w (Z.to_nat (x / 8))) (x mod 8).
Proof.
  intros Hx. rewrite getKey_mask63, getKeyMask_testbit by exact Hx.
  destruct (Z.leb_spec 0 (x / 8)), (Z.ltb_spec (x / 8) (Z.of_nat (Nat.min (String.length w) 6)));
    simpl; try reflexivity.
  assert (x / 8 = 0 \/ x / 8 = 1 \/ x / 8 = 2 \/ x / 8 = 3 \/ x / 8 = 4 \/ x / 8 = 5)
    as Hc by lia.
  destruct Hc as [E|[E|[E|[E|[E|E]]]]]; rewrite E; reflexivity.
Qed.

(* ------------------------------------------------------------------ *)
(** ** The index invariant through loading, querying and shuffling *)

Section Invariant.

Variable LONGEST_WORD : nat.
Variable CYRILLIC_A : Z.

Lemma push_back_In key idx (cur : gmap Z (list Z)) k x :
  In x (default [] (push_back key idx cur !! k)) <->
  In x (default [] (cur !! k)) \/ (x = idx /\ key = k).
Proof.
  unfold push_back. rewrite lookup_insert. case_decide as Hk.
  - subst. simpl. rewrite in_app_iff. simpl. intuition.
  - simpl. intuition.
Qed.

Lemma fold_push_In (masks : list nat) w idx (cur : gmap Z (list Z)) k x :
  In x (default [] (fold_left (fun m mask => push_back (getKeyMask (Z.of_nat mask) w) idx m)
                              masks cur !! k)) <->
  In x (default [] (cur !! k)) \/
  (x = idx /\ exists mask, In mask masks /\ getKeyMask (Z.of_nat mask) w = k).
Proof.
  revert cur. induction masks as [|mask masks IH]; intros cur; simpl.
  - split; [tauto|]. intros [H|[_ [m [[] _]]]]. exact H.
  - rewrite IH, push_back_In. split.
    + intros [[H|[-> <-]]|[-> [m [Hm Hk]]]].
      * left. exact H.
      * right. split; [reflexivity|]. exists mask. split; [left; reflexivity|reflexivity].
      * right. split; [reflexivity|]. exists m. split; [right; exact Hm|exact Hk].
    + intros [H|[-> [m [[<-|Hm] Hk]]]]; eauto 6.
Qed.

Lemma addMasks_In w idx (cur : gmap Z (list Z)) k x :
  In x (default [] (addMasks w idx cur !! k)) <->
  In x (default [] (cur !! k)) \/
  (x = idx /\ exists mask, In mask (seq 0 64) /\ getKeyMask (Z.of_nat mask) w = k).
Proof. apply fold_push_In. Qed.

Local Opaque addMasks.

Lemma indexed_snoc aw w L k id :
  indexed (aw ++ [w]) L k id <->
  indexed aw L k id \/
  (id = Z.of_nat (length aw) mod 65536 /\ String.length w = L /\
   exists mask, (mask < 64)%nat /\ getKeyMask (Z.of_nat mask) w = k).
Proof.
  unfold indexed. split.
  - intros (i & v & Hi & Hid & HL & Hm).
    apply lookup_app_Some in Hi as [Hi|[Hge Hi]].
    + left. eauto 7.
    + right. destruct (i - length aw)%nat as [|n] eqn:E; simpl in Hi; [|discriminate].
      injection Hi as <-. replace i with (length aw) in Hid by lia. auto.
  - intros [(i & v & Hi & Hid & HL & Hm)|(Hid & HL & Hm)].
    + exists i, v. split; [now apply lookup_app_l_Some|]. auto.
    + exists (length aw), w. split; [|auto].
      rewrite lookup_app_r by lia. now rewrite Nat.sub_diag.
Qed.

Lemma bucket_insert_other fs L L' cur k :
  L <> L' -> bucket (<[L := cur]> fs) L' k = bucket fs L' k.
Proof. intros H. unfold bucket. now rewrite list_lookup_insert_ne. Qed.

Lemma inv_reset : Inv LONGEST_WORD (reset_dict LONGEST_WORD).
Proof.
  constructor; simpl.
  - apply repeat_length.
  - intros w [].
  - intros L k id HL. unfold bucket.
    destruct (repeat ∅ LONGEST_WORD !! L) as [cur|] eqn:E.
    + apply list_elem_of_lookup_2, list_elem_of_In, repeat_spec in E. subst cur.
      rewrite lookup_empty. simpl. split; [tauto|].
      intros (i & v & Hi & _). rewrite lookup_nil in Hi. discriminate.
    + simpl. split; [tauto|]. intros (i & v & Hi & _). rewrite lookup_nil in Hi. discriminate.
  - intros p r Hp. rewrite lookup_empty in Hp. discriminate.
Qed.

Lemma inv_load_entry s e s' :
  Inv LONGEST_WORD s -> cacheSearchMap s = ∅ ->
  load_entry CYRILLIC_A s e = Some s' ->
  Inv LONGEST_WORD s' /\ cacheSearchMap s' = ∅.
Proof.
  intros HI Hc. unfold load_entry, addToFastSearch.
  set (clean := toupper CYRILLIC_A (cleanString CYRILLIC_A (dosToWinCode CYRILLIC_A (fst e)))).
  destruct (fastSearch s !! String.length clean) as [cur|] eqn:Ecur; [|discriminate].
  intros Hs. injection Hs as <-.
  pose proof (lookup_lt_Some _ _ _ Ecur) as Hlt. rewrite (inv_len _ _ HI) in Hlt.
  split; [|exact Hc].
  constructor; cbn [fastSearch allWords cacheSearchMap].
  - rewrite length_insert. apply (inv_len _ _ HI).
  - intros w Hw. apply in_app_or in Hw as [Hw|[<-|[]]]; [|exact Hlt].
    exact (inv_words _ _ HI w Hw).
  - intros L k id HL. rewrite indexed_snoc, <- (inv_bucket _ _ HI L k id HL).
    destruct (decide (L = String.length clean)) as [->|Hne].
    + unfold bucket. rewrite list_lookup_insert_eq
        by (rewrite (inv_len _ _ HI); exact Hlt).
      rewrite addMasks_In, Ecur. split.
      * intros [H|[-> (m & Hm & Hk)]]; [now left|right].
        repeat split; auto. exists m. apply in_seq in Hm. split; [lia|exact Hk].
      * intros [H|(-> & _ & m & Hm & Hk)]; [now left|right].
        split; [reflexivity|]. exists m. split; [apply in_seq; lia|exact Hk].
    + rewrite bucket_insert_other by congruence. split; [tauto|].
      intros [H|(_ & HL' & _)]; [exact H|congruence].
  - intros p r Hp. rewrite Hc, lookup_empty in Hp. discriminate.
Qed.

Lemma inv_load_entries es s s' :
  Inv LONGEST_WORD s -> cacheSearchMap s = ∅ ->
  load_entries CYRILLIC_A s es = Some s' ->
  Inv LONGEST_WORD s' /\ cacheSearchMap s' = ∅.
Proof.
  revert s. induction es as [|e es IH]; intros s HI Hc Hl; simpl in Hl.
  - injection Hl as <-. auto.
  - destruct (load_entry CYRILLIC_A s e) as [s1|] eqn:E; [|discriminate].
    destruct (inv_load_entry s e s1 HI Hc E). eauto.
Qed.

Lemma inv_loadDictionary file s :
  loadDictionary LONGEST_WORD CYRILLIC_A file = Some s ->
  Inv LONGEST_WORD s /\ cacheSearchMap s = ∅.
Proof.
  destruct file as [es|]; simpl; intros Hl.
  - eapply inv_load_entries; [apply inv_reset|reflexivity|exact Hl].
  - injection Hl as <-. split; [apply inv_reset|reflexivity].
Qed.


Lemma bucket_after_query (fs : list (gmap Z (list Z))) L cur key L' k :
  fs !! L = Some cur ->
  bucket (<[L := <[key := default [] (cur !! key)]> cur]> fs) L' k = bucket fs L' k.
Proof.
  intros Ecur. unfold bucket. destruct (decide (L = L')) as [<-|Hne].
  - rewrite list_lookup_insert_eq by exact (lookup_lt_Some _ _ _ Ecur).
    rewrite Ecur, lookup_insert. case_decide; subst; reflexivity.
  - now rewrite list_lookup_insert_ne.
Qed.

Lemma inv_findPossible s p r s' :
  Inv LONGEST_WORD s -> findPossible s p = Some (r, s') ->
  Inv LONGEST_WORD s' /\ allWords s' = allWords s /\
  (forall id, In id r <-> answer (allWords s) p id).
Proof.
  intros HI. unfold findPossible.
  destruct (cacheSearchMap s !! p) as [c|] eqn:Ec.
  - intros H. injection H as <- <-. split; [exact HI|split; [reflexivity|]].
    apply (inv_cache _ _ HI p c Ec).
  - destruct (fastSearch s !! String.length p) as [cur|] eqn:Ef; [|discriminate].
    intros H. injection H as <- <-.
    pose proof (lookup_lt_Some _ _ _ Ef) as Hlt. rewrite (inv_len _ _ HI) in Hlt.
    assert (Hn : forall id, In id (default [] (cur !! getKey p)) <->
                            indexed (allWords s) (String.length p) (getKey p) id).
    { intros id. rewrite <- (inv_bucket _ _ HI _ _ id Hlt). unfold bucket. now rewrite Ef. }
    assert (Hr : forall id,
      In id (if (String.length p <=? 6)%nat then default [] (cur !! getKey p)
             else List.filter (fun contender =>
                    isPossible p (getFromIndex s contender) (filledIndices p))
                    (default [] (cur !! getKey p))) <->
      answer (allWords s) p id).
    { intros id. unfold answer. destruct (Nat.leb_spec (String.length p) 6) as [Hle|Hgt].
      - rewrite Hn. split; [intros A; split; [exact A|left; exact Hle]|intros [A _]; exact A].
      - rewrite filter_In, Hn. unfold getFromIndex. split.
        + intros [A B]. split; [exact A|right; exact B].
        + intros [A [C|B]]; [lia|split; assumption]. }
    split; [|split; [reflexivity|exact Hr]].
    constructor; cbn [fastSearch allWords cacheSearchMap].
    + rewrite length_insert. apply HI.
    + apply HI.
    + intros L k id HL. rewrite bucket_after_query by exact Ef. apply HI; exact HL.
    + intros p0 r0 Hp0. rewrite lookup_insert in Hp0. case_decide as E.
      * subst p0. injection Hp0 as <-. split; [exact Hlt|exact Hr].
      * apply (inv_cache _ _ HI p0 r0 Hp0).
Qed.

Lemma findPossible_defined s p :
  Inv LONGEST_WORD s -> (String.length p < LONGEST_WORD)%nat ->
  exists r s', findPossible s p = Some (r, s').
Proof.
  intros HI Hlt. unfold findPossible.
  destruct (cacheSearchMap s !! p) as [c|]; [eauto|].
  destruct (lookup_lt_is_Some_2 (fastSearch s) (String.length p)) as [cur Ecur].
  { rewrite (inv_len _ _ HI). exact Hlt. }
  rewrite Ecur. eauto.
Qed.

Lemma perm_map_In {K} `{Countable K} (m m' : gmap K (list Z)) k x :
  perm_map m m' -> In x (default [] (m !! k)) <-> In x (default [] (m' !! k)).
Proof.
  intros Hp. specialize (Hp k).
  destruct (m !! k) as [a|], (m' !! k) as [b|]; simpl; try contradiction; [|tauto].
  split; [apply Permutation_in|apply Permutation_in; symmetry]; exact Hp.
Qed.

Lemma bucket_shuffle fs fs' L k x :
  Forall2 perm_map fs fs' -> In x (bucket fs L k) <-> In x (bucket fs' L k).
Proof.
  intros HF. revert L. induction HF as [|m m' fs fs' Hm HF IH]; intros L.
  - unfold bucket. simpl. tauto.
  - destruct L as [|L].
    + unfold bucket. simpl. apply perm_map_In. exact Hm.
    + apply (IH L).
Qed.

Lemma inv_shuffle s s' : Inv LONGEST_WORD s -> shuffle s s' -> Inv LONGEST_WORD s'.
Proof.
  intros HI (Haw & _ & _ & Hfs & Hc). constructor.
  - rewrite <- (Forall2_length _ _ _ Hfs). apply HI.
  - rewrite Haw. apply HI.
  - intros L k id HL. rewrite Haw, <- bucket_shuffle by exact Hfs. apply HI. exact HL.
  - intros p r' Hp. rewrite Haw. specialize (Hc p). rewrite Hp in Hc.
    destruct (cacheSearchMap s !! p) as [r|] eqn:Er; [|contradiction].
    destruct (inv_cache _ _ HI p r Er) as [Hlt Hr]. split; [exact Hlt|].
    intros id. rewrite <- Hr. split; apply Permutation_in; [symmetry|]; exact Hc.
Qed.

Lemma inv_reachable s s' :
  Inv LONGEST_WORD s -> reachable s s' ->
  Inv LONGEST_WORD s' /\ allWords s' = allWords s.
Proof.
  intros HI Hr. induction Hr as [s|s1 s2 s3 Hst Hr IH].
  - split; [exact HI|reflexivity].
  - destruct Hst as [s1 p r s2 Hf|s1 s2 Hsh].
    + destruct (inv_findPossible _ _ _ _ HI Hf) as (HI2 & Haw & _).
      destruct (IH HI2) as [HI3 Haw3]. split; [exact HI3|congruence].
    + pose proof (inv_shuffle _ _ HI Hsh) as HI2.
      destruct (IH HI2) as [HI3 Haw3]. split; [exact HI3|].
      destruct Hsh as [Haw _]. congruence.
Qed.

End Invariant.

(* ------------------------------------------------------------------ *)
(** ** Queries on a loaded dictionary *)

Section Queries.

Variable LONGEST_WORD : nat.
Variable CYRILLIC_A : Z.

Lemma isPossible_refl (w : string) (l : list nat) : isPossible w w l = true.
Proof.
  unfold isPossible. apply forallb_forall. intros i _. apply Ascii.eqb_refl.
Qed.

Lemma fall_zero n acc : fall (fun _ => 0) n acc = acc.
Proof.
  revert acc. induction n as [|n IH]; intros acc; simpl; [reflexivity|].
  rewrite IH. apply Z.lor_0_r.
Qed.

Lemma getKeyMask_0 (w : string) : getKeyMask 0 w = 0.
Proof.
  unfold getKeyMask. rewrite (fall_ext _ (fun _ => 0)); [apply fall_zero|].
  intros t _. rewrite Z.shiftr_0_l. reflexivity.
Qed.

Lemma length_unknowns L : String.length (unknowns L) = L.
Proof. induction L as [|L IH]; simpl; congruence. Qed.

Lemma get_unknowns L t : (t < L)%nat -> String.get t (unknowns L) = Some ANY_CHAR.
Proof.
  revert t. induction L as [|L IH]; intros t Ht; [lia|].
  destruct t as [|t]; simpl; [reflexivity|]. apply IH. lia.
Qed.

Lemma getKey_unknowns L : getKey (unknowns L) = 0.
Proof.
  unfold getKey. rewrite (fall_ext _ (fun _ => 0)); [apply fall_zero|].
  intros t Ht. rewrite length_unknowns in Ht.
  unfold byte_at, char_at. rewrite get_unknowns by lia. apply Z.shiftl_0_l.
Qed.

Lemma filter_none {A} (f : A -> bool) (l : list A) :
  (forall x, In x l -> f x = false) -> List.filter f l = [].
Proof.
  induction l as [|a l IH]; intros Hf; simpl; [reflexivity|].
  rewrite Hf by (left; reflexivity). apply IH. intros x Hx. apply Hf. right. exact Hx.
Qed.

Lemma filledIndices_unknowns L : filledIndices (unknowns L) = [].
Proof.
  unfold filledIndices. rewrite length_unknowns.
  apply filter_none. intros i Hi. apply in_seq in Hi.
  unfold char_at. rewrite get_unknowns by lia. reflexivity.
Qed.

(** A loaded dictionary, after any queries and shuffles. *)
Lemma loaded_inv file s0 s :
  loadDictionary LONGEST_WORD CYRILLIC_A file = Some s0 -> reachable s0 s ->
  Inv LONGEST_WORD s /\ allWords s = allWords s0.
Proof.
  intros Hl Hr. destruct (inv_loadDictionary _ _ _ _ Hl) as [HI0 _].
  exact (inv_reachable _ _ _ HI0 Hr).
Qed.

Lemma findPossible_cached s p r s' :
  findPossible s p = Some (r, s') -> cacheSearchMap s' !! p = Some r.
Proof.
  unfold findPossible. destruct (cacheSearchMap s !! p) as [c|] eqn:Ec.
  - intros H. injection H as <- <-. exact Ec.
  - destruct (fastSearch s !! String.length p); [|discriminate].
    intros H. injection H as <- <-. cbn [cacheSearchMap]. apply lookup_insert_eq.
Qed.

Lemma findPossible_from_cache s p r :
  cacheSearchMap s !! p = Some r -> findPossible s p = Some (r, s).
Proof. intros Hc. unfold findPossible. now rewrite Hc. Qed.


Lemma get_lt (w : string) t c : String.get t w = Some c -> (t < String.length w)%nat.
Proof.
  revert t. induction w as [|a w IH]; intros t Ht; simpl in *; [discriminate|].
  destruct t as [|t]; [lia|]. apply IH in Ht. lia.
Qed.

Lemma clearbit_mask_range (m t : nat) :
  (m < 64)%nat -> (t < 6)%nat -> 0 <= Z.clearbit (Z.of_nat m) (Z.of_nat t) < 64.
Proof.
  intros Hm Ht.
  assert (H : forallb (fun m => forallb (fun t =>
                (0 <=? Z.clearbit (Z.of_nat m) (Z.of_nat t)) &&
                (Z.clearbit (Z.of_nat m) (Z.of_nat t) <? 64)) (seq 0 6)) (seq 0 64) = true)
    by reflexivity.
  rewrite forallb_forall in H. specialize (H m (proj2 (in_seq 64 0 m) ltac:(lia))).
  rewrite forallb_forall in H. specialize (H t (proj2 (in_seq 6 0 t) ltac:(lia))).
  apply andb_true_iff in H as [H1 H2]. apply Z.leb_le in H1. apply Z.ltb_lt in H2. lia.
Qed.

(** Forgetting the letter at an unknown position of the pattern is
    clearing the mask bit of that position. *)
Lemma key_forget (m t : nat) (w p p' : string) :
  String.length w = String.length p -> String.length p' = String.length p ->
  String.get t p = Some ANY_CHAR ->
  (forall u, u <> t -> String.get u p' = String.get u p) ->
  getKeyMask (Z.of_nat m) w = getKey p' ->
  getKeyMask (Z.clearbit (Z.of_nat m) (Z.of_nat t)) w = getKey p.
Proof.
  intros Hw Hp' Ht Hu Hk. apply Z.bits_inj'. intros x Hx.
  pose proof (f_equal (fun k => Z.testbit k x) Hk) as Hb. cbn beta in Hb.
  rewrite getKeyMask_testbit, getKey_testbit in Hb by exact Hx.
  rewrite getKeyMask_testbit, getKey_testbit by exact Hx.
  rewrite Hw. rewrite Hw, Hp' in Hb.
  destruct ((0 <=? x / 8) && (x / 8 <? Z.of_nat (Nat.min (String.length p) 6))) eqn:Ec;
    [|reflexivity].
  cbn [andb] in Hb |- *. rewrite Z.clearbit_eqb.
  assert (Hy : 0 <= x / 8) by (apply Z.div_pos; lia).
  destruct (Z.eqb_spec (Z.of_nat t) (x / 8)) as [E|E].
  - rewrite <- E, Nat2Z.id. unfold byte_at, char_at. rewrite Ht.
    change (byte_of ANY_CHAR) with 0. rewrite Z.testbit_0_l.
    destruct (Z.testbit (Z.of_nat m) (Z.of_nat t)); reflexivity.
  - cbn [negb]. rewrite andb_true_r, Hb. unfold byte_at, char_at.
    rewrite Hu by lia. reflexivity.
Qed.

(** C1: for every word [w] of a loaded dictionary (every such word is
    shorter than [LONGEST_WORD], or loading would have indexed out of
    [_fastSearch]), and after any sequence of queries and shuffles,
    [findPossible(w)] is defined and its result contains the identifier
    of [w], its position [i] in the word table (the dictionary holding at
    most 2^16 words, the capacity of the [uint16_t] identifiers). *)
Theorem findPossible_contains_word file s0 s i w :
  loadDictionary LONGEST_WORD CYRILLIC_A file = Some s0 -> reachable s0 s ->
  Z.of_nat (length (allWords s0)) <= 65536 -> allWords s0 !! i = Some w ->
  exists r s', findPossible s w = Some (r, s') /\ In (Z.of_nat i) r.
Proof.
  intros Hl Hr Hcap Hi. destruct (loaded_inv _ _ _ Hl Hr) as [HI Haw].
  assert (Hlt : (String.length w < LONGEST_WORD)%nat).
  { apply (inv_words _ _ HI). rewrite Haw. apply list_elem_of_In.
    eapply list_elem_of_lookup_2. exact Hi. }
  destruct (findPossible_defined _ _ _ HI Hlt) as (r & s' & Hf).
  exists r, s'. split; [exact Hf|].
  destruct (inv_findPossible _ _ _ _ _ HI Hf) as (_ & _ & Hr'). apply Hr'. rewrite Haw.
  pose proof (lookup_lt_Some _ _ _ Hi) as Hil.
  split.
  - exists i, w. split; [exact Hi|]. split; [symmetry; apply Z.mod_small; lia|].
    split; [reflexivity|]. exists 63%nat. split; [lia|]. rewrite getKey_mask63. reflexivity.
  - right. rewrite Nat2Z.id, (nth_lookup_Some _ _ _ _ Hi). apply isPossible_refl.
Qed.

(** C2: for a pattern of [L] unknown placeholders ([L < LONGEST_WORD]),
    on a loaded dictionary of at most 2^16 words after any queries and
    shuffles, the identifiers in the result are exactly those of the
    words of length [L] (as a set: short words occur several times). *)
Theorem findPossible_all_unknown file s0 s L :
  loadDictionary LONGEST_WORD CYRILLIC_A file = Some s0 -> reachable s0 s ->
  Z.of_nat (length (allWords s0)) <= 65536 -> (L < LONGEST_WORD)%nat ->
  exists r s', findPossible s (unknowns L) = Some (r, s') /\
    forall id, In id r <->
      exists i w, allWords s0 !! i = Some w /\ id = Z.of_nat i /\ String.length w = L.
Proof.
  intros Hl Hr Hcap HL. destruct (loaded_inv _ _ _ Hl Hr) as [HI Haw].
  destruct (findPossible_defined _ _ (unknowns L) HI) as (r & s' & Hf).
  { rewrite length_unknowns. exact HL. }
  exists r, s'. split; [exact Hf|].
  destruct (inv_findPossible _ _ _ _ _ HI Hf) as (_ & _ & Hr').
  intros id. rewrite Hr'. unfold answer.
  rewrite Haw, length_unknowns, getKey_unknowns, filledIndices_unknowns. split.
  - intros [(i & w & Hi & Hid & HLw & _) _]. exists i, w.
    pose proof (lookup_lt_Some _ _ _ Hi).
    split; [exact Hi|]. split; [rewrite Hid; apply Z.mod_small; lia|exact HLw].
  - intros (i & w & Hi & -> & HLw). pose proof (lookup_lt_Some _ _ _ Hi). split.
    + exists i, w. split; [exact Hi|]. split; [symmetry; apply Z.mod_small; lia|].
      split; [exact HLw|]. exists 0%nat. split; [lia|apply getKeyMask_0].
    + right. reflexivity.
Qed.

(** C3: for patterns of length at most 6, replacing one unknown position
    of [p] by a letter gives a pattern [p'] whose result set is included
    in that of [p], at any two moments of the dictionary's life. *)
Theorem findPossible_monotone file s0 s1 s2 p p' t c r r' s1' s2' :
  loadDictionary LONGEST_WORD CYRILLIC_A file = Some s0 ->
  reachable s0 s1 -> reachable s0 s2 ->
  (String.length p <= 6)%nat ->
  String.get t p = Some ANY_CHAR -> String.get t p' = Some c ->
  String.length p' = String.length p ->
  (forall u, u <> t -> String.get u p' = String.get u p) ->
  findPossible s1 p' = Some (r', s1') -> findPossible s2 p = Some (r, s2') ->
  forall id, In id r' -> In id r.
Proof.
  intros Hl Hr1 Hr2 H6 Ht Ht' Hlen Hu Hf' Hf id Hid.
  destruct (loaded_inv _ _ _ Hl Hr1) as [HI1 Haw1].
  destruct (loaded_inv _ _ _ Hl Hr2) as [HI2 Haw2].
  destruct (inv_findPossible _ _ _ _ _ HI1 Hf') as (_ & _ & A1).
  destruct (inv_findPossible _ _ _ _ _ HI2 Hf) as (_ & _ & A2).
  apply A2. apply A1 in Hid. rewrite Haw1 in Hid. rewrite Haw2.
  destruct Hid as [(i & w & Hi & Hidv & HL & m & Hm & Hk) _].
  pose proof (get_lt _ _ _ Ht) as Htp.
  split; [|left; exact H6].
  exists i, w. split; [exact Hi|]. split; [exact Hidv|]. split; [congruence|].
  pose proof (clearbit_mask_range m t Hm ltac:(lia)) as Hrange.
  exists (Z.to_nat (Z.clearbit (Z.of_nat m) (Z.of_nat t))).
  split; [lia|]. rewrite Z2Nat.id by lia.
  apply (key_forget m t w p p'); [congruence|exact Hlen|exact Ht|exact Hu|exact Hk].
Qed.

(** C4: on a loaded dictionary, [findPossible] on a pattern of length at
    least [LONGEST_WORD] indexes [_fastSearch] out of range (undefined
    behaviour): there is no bounds check in front of
    [_fastSearch[pattern.size()]]. *)
Theorem findPossible_too_long file s p :
  loadDictionary LONGEST_WORD CYRILLIC_A file = Some s ->
  (LONGEST_WORD <= String.length p)%nat ->
  findPossible s p = None.
Proof.
  intros Hl Hge. destruct (inv_loadDictionary _ _ _ _ Hl) as [HI Hc].
  unfold findPossible. rewrite Hc, lookup_empty.
  rewrite lookup_ge_None_2 by (rewrite (inv_len _ _ HI); exact Hge). reflexivity.
Qed.

(** C8: querying a pattern twice, with or without a shuffle in between,
    gives the same identifiers: the second result is a permutation of
    the first, so in particular the same set. *)
Theorem findPossible_idempotent s p r1 s1 s2 r2 s3 :
  findPossible s p = Some (r1, s1) -> (s2 = s1 \/ shuffle s1 s2) ->
  findPossible s2 p = Some (r2, s3) ->
  Permutation r1 r2 /\ (forall id, In id r1 <-> In id r2).
Proof.
  intros H1 Hs H2. pose proof (findPossible_cached _ _ _ _ H1) as Hc1.
  assert (Hp : Permutation r1 r2).
  { destruct Hs as [->|(_ & _ & _ & _ & Hc)].
    - rewrite (findPossible_from_cache _ _ _ Hc1) in H2. injection H2 as <- _. reflexivity.
    - specialize (Hc p). rewrite Hc1 in Hc.
      destruct (cacheSearchMap s2 !! p) as [b|] eqn:Eb; [|contradiction].
      rewrite (findPossible_from_cache _ _ _ Eb) in H2. injection H2 as <- _. exact Hc. }
  split; [exact Hp|]. intros id. split; apply Permutation_in; [exact Hp|symmetry; exact Hp].
Qed.

End Queries.

(* ------------------------------------------------------------------ *)
(** ** Loading: duplicates and normalisation *)

Section Loading.

Variable LONGEST_WORD : nat.
Variable CYRILLIC_A : Z.

Lemma emplace_lookup (k v : string) (m : gmap string string) k' :
  emplace k v m !! k' =
  match m !! k' with Some x => Some x | None => if String.eqb k k' then Some v else None end.
Proof.
  unfold emplace. destruct (m !! k) as [x|] eqn:E.
  - destruct (m !! k') eqn:E'; [reflexivity|].
    destruct (String.eqb_spec k k'); [congruence|reflexivity].
  - rewrite lookup_insert. case_decide as Hk.
    + subst k'. rewrite E, String.eqb_refl. reflexivity.
    + destruct (m !! k'); [reflexivity|].
      destruct (String.eqb_spec k k'); [congruence|reflexivity].
Qed.

Lemma load_entries_table s es s' :
  load_entries CYRILLIC_A s es = Some s' ->
  allWords s' = allWords s ++ map (fun e => canonical CYRILLIC_A (fst e)) es /\
  (forall k, getDirty s' k =
     match getDirty s k with
     | Some x => Some x
     | None => option_map (fun e => dosToWinCode CYRILLIC_A (fst e)) (first_entry CYRILLIC_A es k)
     end) /\
  (forall k, getExplanation s' k =
     match getExplanation s k with
     | Some x => Some x
     | None => option_map (fun e => dosToWinCode CYRILLIC_A (snd e)) (first_entry CYRILLIC_A es k)
     end).
Proof.
  revert s. induction es as [|e es IH]; intros s Hl; simpl in Hl.
  - injection Hl as <-. simpl. rewrite app_nil_r.
    split; [reflexivity|].
    split; intros k; [destruct (getDirty s k)|destruct (getExplanation s k)]; reflexivity.
  - destruct (load_entry CYRILLIC_A s e) as [s1|] eqn:E; [|discriminate].
    destruct (IH s1 Hl) as (Haw & Hd & He).
    unfold load_entry in E.
    destruct (addToFastSearch _ _ _) as [fs|]; [|discriminate].
    injection E as <-. unfold getDirty, getExplanation in *. cbn [allWords dirtyDict explanationDict] in *.
    split; [|split].
    + rewrite Haw, <- app_assoc. reflexivity.
    + intros k. rewrite Hd, emplace_lookup. unfold first_entry. cbn [List.find].
      unfold canonical. destruct (dirtyDict s !! k); [reflexivity|].
      destruct (String.eqb _ k); reflexivity.
    + intros k. rewrite He, emplace_lookup. unfold first_entry. cbn [List.find].
      unfold canonical. destruct (explanationDict s !! k); [reflexivity|].
      destruct (String.eqb _ k); reflexivity.
Qed.

(** C7 (as amended): loading keeps, for each canonical key, the surface
    spelling and the explanation of the first record with that key;
    every record, a later duplicate as well, is appended to the word
    table, and each word's identifier is registered in the index under
    the word's own key. *)
Theorem load_first_wins_duplicates_kept es s :
  loadDictionary LONGEST_WORD CYRILLIC_A (Some es) = Some s ->
  allWords s = map (fun e => canonical CYRILLIC_A (fst e)) es /\
  (forall k, getDirty s k = option_map (fun e => dosToWinCode CYRILLIC_A (fst e)) (first_entry CYRILLIC_A es k)) /\
  (forall k, getExplanation s k = option_map (fun e => dosToWinCode CYRILLIC_A (snd e)) (first_entry CYRILLIC_A es k)) /\
  (forall i w, allWords s !! i = Some w ->
     In (Z.of_nat i mod 65536) (bucket (fastSearch s) (String.length w) (getKey w))).
Proof.
  intros Hl. destruct (inv_loadDictionary _ _ _ _ Hl) as [HI _].
  simpl in Hl. destruct (load_entries_table _ _ _ Hl) as (Haw & Hd & He).
  split; [exact Haw|]. split; [|split].
  - intros k. rewrite Hd. reflexivity.
  - intros k. rewrite He. reflexivity.
  - intros i w Hi. apply (inv_bucket _ _ HI).
    + apply (inv_words _ _ HI). apply list_elem_of_In. eapply list_elem_of_lookup_2. exact Hi.
    + exists i, w. split; [exact Hi|]. split; [reflexivity|]. split; [reflexivity|].
      exists 63%nat. split; [lia|]. rewrite getKey_mask63. reflexivity.
Qed.

(** C10: a string made only of upper-case letters of the supported range,
    bytes in [CYRILLIC_A - 32, CYRILLIC_A), is left unchanged by the
    canonicalisation [toupper(cleanString(dosToWinCode(w)))]. *)
Theorem canonical_uppercase_fixed (w : string) :
  Forall (fun c => CYRILLIC_A - 32 <= byte_of c < CYRILLIC_A) (list_ascii_of_string w) ->
  canonical CYRILLIC_A w = w.
Proof.
  unfold canonical. induction w as [|c w IH]; intros Hw; [reflexivity|].
  inversion Hw as [|? ? Hc Hrest]; subst.
  cbn [dosToWinCode].
  replace ((CYRILLIC_A - 96 <=? byte_of c) && (byte_of c <? CYRILLIC_A - 32)) with false
    by (destruct (Z.ltb_spec (byte_of c) (CYRILLIC_A - 32)); [lia|symmetry; apply andb_false_r]).
  cbn [cleanString]. unfold isalpha.
  replace (CYRILLIC_A - 32 <=? byte_of c) with true by (symmetry; apply Z.leb_le; lia).
  cbn [toupper]. unfold toupper_c.
  replace (CYRILLIC_A <=? byte_of c) with false by (symmetry; apply Z.leb_gt; lia).
  rewrite IH by exact Hrest. reflexivity.
Qed.

End Loading.

(* ------------------------------------------------------------------ *)
(** ** Configuration and edit distance *)

(** Whenever the requested configuration cannot be read, the constructor
    throws, whatever the state of the default configuration. *)
Lemma ctor_config_requested_fails fs path :
  Config.read_ini fs path = None -> exists what, Config.ctor_config fs path = Config.Throw what.
Proof.
  intros H. unfold Config.ctor_config. rewrite H.
  destruct (Config.opens fs Config.DEFAULT_CONFIG_PATH); eexists; reflexivity.
Qed.

(** C5 (code bug): with a missing requested configuration and a usable
    default one, the constructor does not fall back to the default: it
    throws ["Could not open the given configuration path nor the default
    configuration path"].  The test [if (std::ifstream{ DEFAULT_CONFIG_PATH })]
    throws exactly when the default opens, and the retry reads
    [configFilePath] again instead of [DEFAULT_CONFIG_PATH]. *)
Theorem ctor_config_no_fallback :
  Config.read_ini only_default_config "my/config.ini" = None /\
  Config.read_ini only_default_config Config.DEFAULT_CONFIG_PATH <> None /\
  Config.ctor_config only_default_config "my/config.ini" =
    Config.Throw "Could not open the given configuration path nor the default configuration path".
Proof. split; [reflexivity|split; [discriminate|reflexivity]]. Qed.

(** C6 (code bug): [levenstein] fills the base row and column with 0
    ([if (std::min(i, j) == 0) dp[i][j] = 0;]) instead of the index, so
    it is not the Levenshtein distance: on ("", "ABC") it returns 0,
    where the distance is 3.  On ("KITTEN", "SITTING") both give 3. *)
Theorem levenstein_zero_border :
  Lev.levenstein "" "ABC" = 0 /\ Lev.classic_levenshtein "" "ABC" = 3 /\
  Lev.levenstein "XA" "A" = 0 /\ Lev.classic_levenshtein "XA" "A" = 1 /\
  Lev.levenstein "KITTEN" "SITTING" = 3.
Proof. repeat split; reflexivity. Qed.

Module CrosswordFacts.
Import Crossword.
Local Open Scope nat_scope.

Section Line.
Variable L : nat.
Variable open : nat -> bool.

Lemma advance_ge fuel j : j <= advance L open fuel j.
Proof.
  revert j; induction fuel as [|f IH]; intros j; cbn [advance]; [lia|].
  destruct ((j <? L) && open j); [specialize (IH (S j)); lia | lia].
Qed.

Lemma advance_spec fuel j :
  L <= j + fuel ->
  let e := advance L open fuel j in
  (forall k, j <= k < e -> k < L /\ open k = true) /\
  (e < L -> open e = false) /\ (j <= L -> e <= L).
Proof.
  revert j; induction fuel as [|f IH]; intros j Hf; cbn [advance].
  - repeat split; intros; lia.
  - destruct (j <? L) eqn:Hj; cbn [andb]; [destruct (open j) eqn:Ho|].
    + apply Nat.ltb_lt in Hj. destruct (IH (S j) ltac:(lia)) as (H1 & H2 & H3).
      split; [|split].
      * intros k Hk. destruct (Nat.eq_dec k j) as [->|Hne]; [auto|].
        apply H1. lia.
      * exact H2.
      * intros _. apply H3. lia.
    + split; [|split]; intros; try lia. exact Ho.
    + apply Nat.ltb_ge in Hj. repeat split; intros; lia.
Qed.

Lemma runs_ge fuel j s e : In (s, e) (runs L open fuel j) -> j <= s.
Proof.
  revert j; induction fuel as [|f IH]; intros j H; cbn [runs] in H; [easy|].
  destruct (j <? L); [|easy].
  apply in_app_iff in H as [H|H].
  - destruct (_ - j <=? 1); [easy|]. destruct H as [H|[]]. injection H; lia.
  - apply IH in H. pose proof (advance_ge L j). lia.
Qed.

Lemma runs_spec fuel j :
  L <= j + fuel -> (j = 0 \/ L < j \/ open (j - 1) = false) ->
  forall s e, In (s, e) (runs L open fuel j) <-> j <= s /\ maximal_run L open s e.
Proof.
  unfold maximal_run.
  revert j; induction fuel as [|f IH]; intros j Hf Hl s e; cbn [runs].
  - split; [easy|]. lia.
  - destruct (j <? L) eqn:Hj; [apply Nat.ltb_lt in Hj | apply Nat.ltb_ge in Hj;
      split; [easy|]; lia].
    set (e0 := advance L open L j).
    destruct (advance_spec L j ltac:(lia)) as (H1 & H2 & H3). fold e0 in H1, H2, H3.
    pose proof (advance_ge L j) as H0. fold e0 in H0.
    assert (Hl' : S e0 = 0 \/ L < S e0 \/ open (S e0 - 1) = false).
    { destruct (Nat.lt_ge_cases e0 L) as [Hlt|Hge].
      - right; right. replace (S e0 - 1) with e0 by lia. auto.
      - right; left. lia. }
    specialize (IH (S e0) ltac:(lia) Hl' s e).
    rewrite in_app_iff, IH. split.
    + intros [H|H]; [|split; [lia|]; tauto].
      destruct (e0 - j <=? 1) eqn:Hd; [easy|]. apply Nat.leb_gt in Hd.
      destruct H as [H|[]]. injection H as <- <-.
      repeat split; try lia.
      * intros k Hk. apply H1. lia.
      * destruct Hl as [Hl|[Hl|Hl]]; [left|lia|right]; auto.
      * destruct (Nat.lt_ge_cases e0 L); [right; auto | left; lia].
    + intros (Hjs & Hse & HeL & Hopen & Hleft & Hright).
      destruct (Nat.eq_dec s j) as [->|Hne].
      * left. assert (e = e0).
        { destruct (Nat.lt_total e e0) as [Hlt|[Heq|Hgt]]; [|exact Heq|].
          - destruct (H1 e ltac:(lia)) as [He1 He2].
            destruct Hright as [Hr|Hr]; [lia|congruence].
          - assert (He0 : e0 < L) by lia. specialize (H2 He0).
            rewrite Hopen in H2 by lia. discriminate. }
        subst e. destruct (e0 - j <=? 1) eqn:Hd; [apply Nat.leb_le in Hd; lia|].
        now left.
      * right. split; [|repeat split; auto].
        destruct (Nat.lt_ge_cases e0 s) as [Hlt|Hge]; [lia|].
        destruct Hleft as [Hleft|Hleft]; [lia|].
        destruct (H1 (s - 1) ltac:(lia)) as [_ Ho]. congruence.
Qed.

Lemma runs_full s e :
  In (s, e) (runs L open L 0) <-> maximal_run L open s e.
Proof.
  rewrite (runs_spec L 0 ltac:(lia) (or_introl eq_refl)). split; [tauto|].
  intros H; split; [lia|exact H].
Qed.

Lemma runs_NoDup fuel j : NoDup (runs L open fuel j).
Proof.
  revert j; induction fuel as [|f IH]; intros j; cbn [runs]; [constructor|].
  destruct (j <? L); [|constructor].
  destruct (_ - j <=? 1); cbn [app]; [apply IH|].
  constructor; [|apply IH].
  intros H. apply list_elem_of_In, runs_ge in H. pose proof (advance_ge L j). lia.
Qed.

End Line.

Lemma NoDup_map_on {A B} (g : A -> B) (l : list A) :
  NoDup l -> (forall x y, In x l -> In y l -> g x = g y -> x = y) -> NoDup (map g l).
Proof.
  induction 1 as [|x l Hx Hl IH]; intros Hinj; cbn [map]; constructor.
  - intros Hin. apply list_elem_of_In, in_map_iff in Hin as (y & Hy & Hyl).
    assert (y = x) by (apply Hinj; cbn; auto). subst. apply Hx, list_elem_of_In, Hyl.
  - apply IH. intros a c Ha Hc. apply Hinj; cbn; auto.
Qed.

Lemma NoDup_concat_map_seq {B} (f : nat -> list B) a n :
  (forall i, NoDup (f i)) ->
  (forall i i' x, In x (f i) -> In x (f i') -> i = i') ->
  NoDup (concat (map f (seq a n))).
Proof.
  intros Hnd Hdis. revert a; induction n as [|n IH]; intros a; [constructor|].
  cbn [seq map concat]. apply NoDup_app. repeat split; auto.
  intros x Hx Hx'. apply list_elem_of_In in Hx, Hx'.
  apply in_concat in Hx' as (l & Hl & Hxl). apply in_map_iff in Hl as (i & <- & Hi).
  apply in_seq in Hi. specialize (Hdis a i x Hx Hxl). lia.
Qed.

Lemma In_concat_map_seq {B} (f : nat -> list B) n x :
  In x (concat (map f (seq 0 n))) <-> exists i, i < n /\ In x (f i).
Proof.
  rewrite in_concat. split.
  - intros (l & Hl & Hx). apply in_map_iff in Hl as (i & <- & Hi).
    apply in_seq in Hi. exists i. split; [lia|auto].
  - intros (i & Hi & Hx). exists (f i). split; [|auto].
    apply in_map. apply in_seq. lia.
Qed.

Lemma letters_inj (c : nat -> (nat * nat) * nat) (c' : nat -> (nat * nat) * nat) s e s' e' :
  s + 2 <= e -> s' + 2 <= e' ->
  map c (seq s (e - s)) = map c' (seq s' (e' - s')) ->
  c s = c' s' /\ e - s = e' - s'.
Proof.
  intros He He' Heq. split.
  - destruct (e - s) as [|d] eqn:Hd; [lia|]. destruct (e' - s') as [|d'] eqn:Hd'; [lia|].
    cbn [seq map] in Heq. now injection Heq.
  - apply (f_equal (@length _)) in Heq. now rewrite !length_map, !length_seq in Heq.
Qed.

Lemma hslot_inj b i i' s e s' e' :
  s + 2 <= e -> s' + 2 <= e' ->
  hslot b i (s, e) = hslot b i' (s', e') -> i = i' /\ s = s' /\ e = e'.
Proof.
  intros He He' H. injection H as H.
  destruct (letters_inj _ _ _ _ _ _ He He' H) as [H1 H2].
  injection H1 as -> ->. lia.
Qed.

Lemma vslot_inj b j j' s e s' e' :
  s + 2 <= e -> s' + 2 <= e' ->
  vslot b j (s, e) = vslot b j' (s', e') -> j = j' /\ s = s' /\ e = e'.
Proof.
  intros He He' H. injection H as H.
  destruct (letters_inj _ _ _ _ _ _ He He' H) as [H1 H2].
  injection H1 as -> ->. lia.
Qed.

Lemma row_runs_spec b i s e :
  In (s, e) (row_runs b i) <-> maximal_run (M b) (fun k => negb (isBox b i k)) s e.
Proof. apply runs_full. Qed.

Lemma col_runs_spec b j s e :
  In (s, e) (col_runs b j) <-> maximal_run (N b) (fun k => negb (isBox b k j)) s e.
Proof. apply runs_full. Qed.

Lemma maximal_run_len L f s e : maximal_run L f s e -> s + 2 <= e.
Proof. now intros []. Qed.

Lemma areas_unsorted_NoDup b : NoDup (areas_unsorted b).
Proof.
  unfold areas_unsorted. apply NoDup_app. repeat split.
  - apply NoDup_concat_map_seq.
    + intros i. apply NoDup_map_on; [apply runs_NoDup|].
      intros [s e] [s' e'] H H' Heq.
      apply row_runs_spec, maximal_run_len in H. apply row_runs_spec, maximal_run_len in H'.
      destruct (hslot_inj _ _ _ _ _ _ _ H H' Heq) as (_ & -> & ->). reflexivity.
    + intros i i' x Hx Hx'.
      apply in_map_iff in Hx as ([s e] & <- & H). apply in_map_iff in Hx' as ([s' e'] & Heq & H').
      apply row_runs_spec, maximal_run_len in H. apply row_runs_spec, maximal_run_len in H'.
      symmetry in Heq. now destruct (hslot_inj _ _ _ _ _ _ _ H H' Heq).
  - intros x Hx Hx'. apply list_elem_of_In in Hx, Hx'.
    apply In_concat_map_seq in Hx as (i & _ & Hx). apply In_concat_map_seq in Hx' as (j & _ & Hx').
    apply in_map_iff in Hx as (r & <- & _). apply in_map_iff in Hx' as (r' & Heq & _).
    discriminate Heq.
  - apply NoDup_concat_map_seq.
    + intros j. apply NoDup_map_on; [apply runs_NoDup|].
      intros [s e] [s' e'] H H' Heq.
      apply col_runs_spec, maximal_run_len in H. apply col_runs_spec, maximal_run_len in H'.
      destruct (vslot_inj _ _ _ _ _ _ _ H H' Heq) as (_ & -> & ->). reflexivity.
    + intros j j' x Hx Hx'.
      apply in_map_iff in Hx as ([s e] & <- & H). apply in_map_iff in Hx' as ([s' e'] & Heq & H').
      apply col_runs_spec, maximal_run_len in H. apply col_runs_spec, maximal_run_len in H'.
      symmetry in Heq. now destruct (vslot_inj _ _ _ _ _ _ _ H H' Heq).
Qed.

Lemma areas_unsorted_In b pos :
  In pos (areas_unsorted b) <->
  (exists i s e, i < N b /\ maximal_run (M b) (fun k => negb (isBox b i k)) s e /\
     pos = hslot b i (s, e)) \/
  (exists j s e, j < M b /\ maximal_run (N b) (fun k => negb (isBox b k j)) s e /\
     pos = vslot b j (s, e)).
Proof.
  unfold areas_unsorted. rewrite in_app_iff, !In_concat_map_seq. split.
  - intros [(i & Hi & H)|(j & Hj & H)].
    + left. apply in_map_iff in H as ([s e] & <- & H). apply row_runs_spec in H.
      exists i, s, e. auto.
    + right. apply in_map_iff in H as ([s e] & <- & H). apply col_runs_spec in H.
      exists j, s, e. auto.
  - intros [(i & s & e & Hi & H & ->)|(j & s & e & Hj & H & ->)].
    + left. exists i. split; [exact Hi|]. apply in_map. now apply row_runs_spec.
    + right. exists j. split; [exact Hj|]. apply in_map. now apply col_runs_spec.
Qed.

Lemma NoDup_singleton_of {A} (l : list A) x :
  NoDup l -> (forall y, In y l <-> y = x) -> l = [x].
Proof.
  intros Hnd Hin. destruct l as [|a l]; [destruct (proj2 (Hin x) eq_refl)|].
  assert (a = x) as -> by (apply Hin; now left).
  destruct l as [|a' l]; [reflexivity|].
  assert (a' = x) as -> by (apply Hin; right; now left).
  apply NoDup_cons in Hnd as [Hnd _]. exfalso. apply Hnd. apply list_elem_of_In. now left.
Qed.

(** C9: the slots [loadWords] leaves in [areas], in whatever order the
    sort puts them, are pairwise distinct and are exactly the maximal
    runs [s, e) of at least two open cells of a row [i] (horizontal slot
    of the cells (i, s) .. (i, e-1)) or of a column [j] (vertical slot);
    a run of a single open cell gives no slot.  Hence a 1x1 grid has no
    slot, and an open 1xN grid, N >= 2, has exactly the horizontal slot
    of its N cells. *)
Theorem loadWords_slots (b : board) (areas : list position) :
  loadWords b areas ->
  NoDup areas /\
  (forall pos, In pos areas <->
     (exists i s e, i < N b /\ maximal_run (M b) (fun k => negb (isBox b i k)) s e /\
        pos = hslot b i (s, e)) \/
     (exists j s e, j < M b /\ maximal_run (N b) (fun k => negb (isBox b k j)) s e /\
        pos = vslot b j (s, e))) /\
  (N b = 1 -> M b = 1 -> areas = []) /\
  (N b = 1 -> 2 <= M b -> (forall k, k < M b -> isBox b 0 k = false) ->
     areas = [hslot b 0 (0, M b)]).
Proof.
  intros Hp.
  assert (Hin : forall pos, In pos areas <-> In pos (areas_unsorted b))
    by (intros pos; split; apply Permutation_in; [symmetry|]; exact Hp).
  assert (Hnd : NoDup areas) by (apply NoDup_ListNoDup; eapply Permutation_NoDup;
    [exact Hp|apply NoDup_ListNoDup, areas_unsorted_NoDup]).
  split; [exact Hnd|]. split; [intros pos; rewrite Hin; apply areas_unsorted_In|]. split.
  - intros HN HM. destruct areas as [|pos areas]; [reflexivity|exfalso].
    assert (H : In pos (pos :: areas)) by now left.
    rewrite Hin, areas_unsorted_In in H.
    destruct H as [(i & s & e & _ & (H1 & H2 & _) & _)|(j & s & e & _ & (H1 & H2 & _) & _)]; lia.
  - intros HN HM Hbox. apply NoDup_singleton_of; [exact Hnd|].
    intros pos. rewrite Hin, areas_unsorted_In. split.
    + intros [(i & s & e & Hi & (H1 & H2 & H3 & H4 & H5) & ->)|
              (j & s & e & _ & (H1 & H2 & _) & _)]; [|lia].
      assert (i = 0) as -> by lia.
      assert (s = 0) as ->.
      { destruct H4 as [H4|H4]; [exact H4|]. rewrite Hbox in H4 by lia. discriminate. }
      assert (e = M b) as ->.
      { destruct H5 as [H5|H5]; [exact H5|].
        destruct (Nat.eq_dec e (M b)) as [He|He]; [exact He|].
        rewrite Hbox in H5 by lia. discriminate. }
      reflexivity.
    + intros ->. left. exists 0, 0, (M b). split; [lia|]. split; [|reflexivity].
      repeat split; try lia; try (now left).
      intros k Hk. now rewrite Hbox by lia.
Qed.

End CrosswordFacts.

(* ------------------------------------------------------------------ *)
(** ** Further properties: the edit distance routine *)

Module LevFacts.
Import Lev.

Lemma row_tail_length ai b prev left :
  length prev = S (String.length b) -> length (row_tail ai b prev left) = String.length b.
Proof.
  revert prev left; induction b as [|bj b IH]; intros prev left Hl; [reflexivity|].
  destruct prev as [|pdiag [|pup prev']]; cbn in Hl; try lia.
  cbn [row_tail String.length length]. f_equal. apply IH. cbn. lia.
Qed.

Lemma row_tail_nonneg ai b prev left :
  0 <= left -> List.Forall (fun x => 0 <= x) prev ->
  List.Forall (fun x => 0 <= x) (row_tail ai b prev left).
Proof.
  revert prev left; induction b as [|bj b IH]; intros prev left Hleft Hp; [constructor|].
  destruct prev as [|pdiag [|pup prev']]; cbn [row_tail]; [constructor|constructor|].
  inversion Hp as [|? ? Hd Hp']; subst. inversion Hp' as [|? ? Hu _]; subst.
  constructor.
  - destruct (Ascii.eqb ai bj); lia.
  - apply IH; [destruct (Ascii.eqb ai bj); lia|exact Hp'].
Qed.

Lemma row_tail_le ai b prev left c :
  List.Forall (fun x => x <= c) prev ->
  List.Forall (fun x => x <= c + 1) (row_tail ai b prev left).
Proof.
  revert prev left; induction b as [|bj b IH]; intros prev left Hp; [constructor|].
  destruct prev as [|pdiag [|pup prev']]; cbn [row_tail]; [constructor|constructor|].
  inversion Hp as [|? ? Hd Hp']; subst.
  constructor.
  - destruct (Ascii.eqb ai bj); lia.
  - apply IH. exact Hp'.
Qed.

Lemma row_tail_nth ai b prev left k :
  (k < length (row_tail ai b prev left))%nat ->
  nth k (row_tail ai b prev left) 0 <= left + 1 + Z.of_nat k.
Proof.
  revert prev left k; induction b as [|bj b IH]; intros prev left k Hk; [cbn in Hk; lia|].
  destruct prev as [|pdiag [|pup prev']]; cbn [row_tail] in Hk |- *; [cbn in Hk; lia|cbn in Hk; lia|].
  destruct k as [|k]; cbn [nth].
  - destruct (Ascii.eqb ai bj); lia.
  - cbn [length] in Hk. eapply Z.le_trans; [apply IH; lia|]. destruct (Ascii.eqb ai bj); lia.
Qed.

Lemma rows_inv a b row (n : Z) :
  0 <= n -> length row = S (String.length b) ->
  List.Forall (fun x => 0 <= x) row -> List.Forall (fun x => x <= n) row ->
  (forall k, (k < length row)%nat -> nth k row 0 <= Z.of_nat k) ->
  length (rows a b row) = S (String.length b) /\
  List.Forall (fun x => 0 <= x) (rows a b row) /\
  List.Forall (fun x => x <= n + Z.of_nat (String.length a)) (rows a b row) /\
  (forall k, (k < length (rows a b row))%nat -> nth k (rows a b row) 0 <= Z.of_nat k).
Proof.
  revert row n; induction a as [|ai a IH]; intros row n Hn H1 H2 H3 H4; cbn [rows String.length].
  - change (Z.of_nat 0) with 0. rewrite Z.add_0_r. auto.
  - replace (n + Z.of_nat (S (String.length a))) with ((n + 1) + Z.of_nat (String.length a)) by lia.
    unfold next_row. apply IH.
    + lia.
    + cbn [length]. rewrite row_tail_length by exact H1. reflexivity.
    + constructor; [lia|]. apply row_tail_nonneg; [lia|exact H2].
    + constructor; [lia|]. apply row_tail_le. exact H3.
    + intros [|k] Hk; cbn [nth]; [lia|]. cbn [length] in Hk.
      eapply Z.le_trans; [apply row_tail_nth; lia|lia].
Qed.

(** [levenstein] is never negative and never exceeds the length of the
    shorter string; it is 0 when either string is empty. *)
Theorem levenstein_bounds a b :
  0 <= levenstein a b <= Z.min (Z.of_nat (String.length a)) (Z.of_nat (String.length b)).
Proof.
  unfold levenstein.
  destruct (rows_inv a b (repeat 0 (S (String.length b))) 0) as (H1 & H2 & H3 & H4).
  - lia.
  - apply repeat_length.
  - apply List.Forall_forall. intros x Hx. apply repeat_spec in Hx. lia.
  - apply List.Forall_forall. intros x Hx. apply repeat_spec in Hx. lia.
  - intros k Hk. assert (Hin : In (nth k (repeat 0 (S (String.length b))) 0)
                                  (repeat 0 (S (String.length b)))) by (apply nth_In; exact Hk).
    apply repeat_spec in Hin. lia.
  - assert (Hlt : (String.length b < length (rows a b (repeat 0%Z (S (String.length b)))))%nat) by lia.
    pose proof (nth_In _ 0%Z Hlt) as Hin.
    pose proof (proj1 (List.Forall_forall _ _) H2 _ Hin).
    pose proof (proj1 (List.Forall_forall _ _) H3 _ Hin).
    pose proof (H4 _ Hlt). cbv beta in *. lia.
Qed.

Lemma row_tail_classic ai b prev prev' left left' :
  List.Forall2 Z.le prev prev' -> left <= left' ->
  List.Forall2 Z.le (row_tail ai b prev left) (classic_row_tail ai b prev' left').
Proof.
  revert prev prev' left left'; induction b as [|bj b IH]; intros prev prev' left left' Hp Hl.
  - cbn. constructor.
  - destruct Hp as [|pdiag pdiag' rest rest' Hd Hr]; [cbn; constructor|].
    destruct Hr as [|pup pup' rest0 rest0' Hu Hr0]; [cbn; constructor|].
    cbn [row_tail classic_row_tail]. constructor.
    + destruct (Ascii.eqb ai bj); lia.
    + apply IH; [constructor; assumption|destruct (Ascii.eqb ai bj); lia].
Qed.

Lemma rows_classic a b row row' i :
  List.Forall2 Z.le row row' -> 0 <= i ->
  List.Forall2 Z.le (rows a b row) (classic_rows i a b row').
Proof.
  revert row row' i; induction a as [|ai a IH]; intros row row' i Hr Hi; cbn [rows classic_rows];
    [exact Hr|].
  apply IH; [|lia]. unfold next_row. constructor; [lia|].
  apply row_tail_classic; [exact Hr|lia].
Qed.

Lemma init_classic n st : List.Forall2 Z.le (repeat 0 n) (map Z.of_nat (seq st n)).
Proof.
  revert st; induction n as [|n IH]; intros st; cbn; constructor; [lia|apply IH].
Qed.

Lemma Forall2_nth_le l l' k : List.Forall2 Z.le l l' -> nth k l 0 <= nth k l' 0.
Proof.
  intros H; revert k; induction H as [|x y l l' Hxy H IH]; intros [|k]; cbn; auto; lia.
Qed.

(** [levenstein] never exceeds the Levenshtein distance: with its zero
    borders every cell of its table is at most the textbook one. *)
Theorem levenstein_le_classic a b : levenstein a b <= classic_levenshtein a b.
Proof.
  unfold levenstein, classic_levenshtein. apply Forall2_nth_le, rows_classic; [apply init_classic|lia].
Qed.

End LevFacts.

(* ------------------------------------------------------------------ *)
(** ** Further properties: keys and pattern matching *)

Lemma byte_eq_bits a b :
  0 <= a < 256 -> 0 <= b < 256 -> (forall x, 0 <= x < 8 -> Z.testbit a x = Z.testbit b x) -> a = b.
Proof.
  intros Ha Hb H. apply Z.bits_inj'. intros x Hx.
  destruct (Z.ltb_spec x 8) as [Hlt|Hge]; [apply H; lia|].
  rewrite <- (Z.mod_small a (2 ^ 8)) by (simpl; lia).
  rewrite <- (Z.mod_small b (2 ^ 8)) by (simpl; lia).
  rewrite !Z.mod_pow2_bits_high by lia. reflexivity.
Qed.

Lemma char_at_eq_byte u v t : char_at u t = char_at v t <-> byte_at u t = byte_at v t.
Proof.
  unfold byte_at. split; [intros ->; reflexivity|intros H].
  rewrite <- (char_of_byte_of (char_at u t)), <- (char_of_byte_of (char_at v t)), H. reflexivity.
Qed.

Lemma key_bit_pos t x :
  0 <= x < 8 -> (Z.of_nat t * 8 + x) / 8 = Z.of_nat t /\ (Z.of_nat t * 8 + x) mod 8 = x.
Proof.
  intros Hx. split.
  - rewrite Z.div_add_l by lia. rewrite Z.div_small by lia. lia.
  - rewrite Z.add_comm, Z.mod_add by lia. apply Z.mod_small. lia.
Qed.

Lemma getKeyMask_byte m w t x :
  (t < Nat.min (String.length w) 6)%nat -> 0 <= x < 8 ->
  Z.testbit (getKeyMask m w) (Z.of_nat t * 8 + x) =
  Z.testbit m (Z.of_nat t) && Z.testbit (byte_at w t) x.
Proof.
  intros Ht Hx. destruct (key_bit_pos t x Hx) as [E1 E2].
  rewrite getKeyMask_testbit by lia. rewrite E1, E2, Nat2Z.id.
  replace ((0 <=? Z.of_nat t) && (Z.of_nat t <? Z.of_nat (Nat.min (String.length w) 6))) with true
    by (symmetry; apply andb_true_iff; split; [apply Z.leb_le|apply Z.ltb_lt]; lia).
  reflexivity.
Qed.

Lemma getKey_byte w t x :
  (t < Nat.min (String.length w) 6)%nat -> 0 <= x < 8 ->
  Z.testbit (getKey w) (Z.of_nat t * 8 + x) = Z.testbit (byte_at w t) x.
Proof.
  intros Ht Hx. destruct (key_bit_pos t x Hx) as [E1 E2].
  rewrite getKey_testbit by lia. rewrite E1, E2, Nat2Z.id.
  replace ((0 <=? Z.of_nat t) && (Z.of_nat t <? Z.of_nat (Nat.min (String.length w) 6))) with true
    by (symmetry; apply andb_true_iff; split; [apply Z.leb_le|apply Z.ltb_lt]; lia).
  reflexivity.
Qed.

(** Two words of the same length have the same [getKey(word)] exactly
    when they agree on their first [min(length, 6)] letters. *)
Theorem getKey_eq_iff u v :
  String.length u = String.length v ->
  getKey u = getKey v <->
  forall t, (t < Nat.min (String.length u) 6)%nat -> char_at u t = char_at v t.
Proof.
  intros Hl. split.
  - intros Hk t Ht. apply char_at_eq_byte. apply byte_eq_bits; try apply byte_of_range.
    intros x Hx. rewrite <- (getKey_byte u t x Ht Hx).
    rewrite <- (getKey_byte v t x ltac:(rewrite <- Hl; exact Ht) Hx), Hk. reflexivity.
  - intros H. apply Z.bits_inj'. intros x Hx. rewrite !getKey_testbit by exact Hx. rewrite <- Hl.
    destruct ((0 <=? x / 8) && (x / 8 <? Z.of_nat (Nat.min (String.length u) 6))) eqn:E;
      [|reflexivity].
    cbn [andb]. apply andb_true_iff in E as [E1 E2]. apply Z.leb_le in E1. apply Z.ltb_lt in E2.
    assert (Ht : (Z.to_nat (x / 8) < Nat.min (String.length u) 6)%nat) by lia.
    pose proof (proj1 (char_at_eq_byte u v _) (H _ Ht)) as Hb. rewrite Hb. reflexivity.
Qed.

Lemma mask_exists (f : nat -> bool) :
  exists m, (m < 64)%nat /\ forall t, (t < 6)%nat -> Z.testbit (Z.of_nat m) (Z.of_nat t) = f t.
Proof.
  assert (H : forall b0 b1 b2 b3 b4 b5 : bool, exists m, (m < 64)%nat /\
     Z.testbit (Z.of_nat m) 0 = b0 /\ Z.testbit (Z.of_nat m) 1 = b1 /\
     Z.testbit (Z.of_nat m) 2 = b2 /\ Z.testbit (Z.of_nat m) 3 = b3 /\
     Z.testbit (Z.of_nat m) 4 = b4 /\ Z.testbit (Z.of_nat m) 5 = b5).
  { intros b0 b1 b2 b3 b4 b5.
    exists (Nat.b2n b0 + 2 * Nat.b2n b1 + 4 * Nat.b2n b2 + 8 * Nat.b2n b3 +
            16 * Nat.b2n b4 + 32 * Nat.b2n b5)%nat.
    destruct b0, b1, b2, b3, b4, b5; split; try (cbn; lia); repeat split. }
  destruct (H (f 0%nat) (f 1%nat) (f 2%nat) (f 3%nat) (f 4%nat) (f 5%nat))
    as (m & Hm & H0 & H1 & H2 & H3 & H4 & H5).
  exists m. split; [exact Hm|]. intros t Ht.
  destruct t as [|[|[|[|[|[|t]]]]]]; [exact H0|exact H1|exact H2|exact H3|exact H4|exact H5|lia].
Qed.

(** A word is registered under the key of a pattern of its length
    exactly when it agrees with the pattern on every concrete position
    among the first six. *)
Lemma mask_match w p :
  String.length w = String.length p ->
  (exists m, (m < 64)%nat /\ getKeyMask (Z.of_nat m) w = getKey p) <->
  (forall t, (t < Nat.min (String.length p) 6)%nat ->
     char_at p t = ANY_CHAR \/ char_at w t = char_at p t).
Proof.
  intros Hl. split.
  - intros (m & Hm & Hk) t Ht.
    assert (Htw : (t < Nat.min (String.length w) 6)%nat) by (rewrite Hl; exact Ht).
    destruct (Z.testbit (Z.of_nat m) (Z.of_nat t)) eqn:Eb.
    + right. apply char_at_eq_byte. apply byte_eq_bits; try apply byte_of_range.
      intros x Hx. rewrite <- (getKey_byte p t x Ht Hx), <- Hk, (getKeyMask_byte _ _ _ _ Htw Hx), Eb.
      reflexivity.
    + left. assert (Hz : byte_at p t = 0).
      { apply byte_eq_bits; [apply byte_of_range|lia|]. intros x Hx.
        rewrite <- (getKey_byte p t x Ht Hx), <- Hk, (getKeyMask_byte _ _ _ _ Htw Hx), Eb,
          Z.testbit_0_l. reflexivity. }
      unfold byte_at in Hz. rewrite <- (char_of_byte_of (char_at p t)), Hz. reflexivity.
  - intros H. destruct (mask_exists (fun t => negb (Ascii.eqb (char_at p t) ANY_CHAR)))
      as (m & Hm & Hb).
    exists m. split; [exact Hm|]. apply Z.bits_inj'. intros x Hx.
    rewrite getKeyMask_testbit, getKey_testbit by exact Hx. rewrite Hl.
    destruct ((0 <=? x / 8) && (x / 8 <? Z.of_nat (Nat.min (String.length p) 6))) eqn:E;
      [|reflexivity].
    cbn [andb]. apply andb_true_iff in E as [E1 E2]. apply Z.leb_le in E1. apply Z.ltb_lt in E2.
    assert (Ht : (Z.to_nat (x / 8) < Nat.min (String.length p) 6)%nat) by lia.
    replace (Z.testbit (Z.of_nat m) (x / 8)) with
      (negb (Ascii.eqb (char_at p (Z.to_nat (x / 8))) ANY_CHAR))
      by (rewrite <- Hb by lia; f_equal; lia).
    destruct (Ascii.eqb_spec (char_at p (Z.to_nat (x / 8))) ANY_CHAR) as [Ea|Ea]; cbn [negb andb].
    + unfold byte_at. rewrite Ea. change (byte_of ANY_CHAR) with 0. rewrite Z.testbit_0_l.
      reflexivity.
    + destruct (H _ Ht) as [Ha|Hw]; [contradiction|]. unfold byte_at. rewrite Hw. reflexivity.
Qed.

(** [isPossible(pattern, contender, filledIndices)] with the filled
    indices of the pattern: the contender agrees with every concrete
    position of the pattern. *)
Lemma isPossible_filled_iff p w :
  isPossible p w (filledIndices p) = true <->
  forall t, (t < String.length p)%nat -> char_at p t = ANY_CHAR \/ char_at w t = char_at p t.
Proof.
  unfold isPossible, filledIndices. rewrite forallb_forall. split.
  - intros H t Ht. destruct (Ascii.eqb_spec (char_at p t) ANY_CHAR) as [E|E]; [left; exact E|right].
    assert (Hin : In t (List.filter (fun i => negb (Ascii.eqb (char_at p i) ANY_CHAR))
                                    (seq 0 (String.length p)))).
    { apply filter_In. split; [apply in_seq; lia|].
      destruct (Ascii.eqb_spec (char_at p t) ANY_CHAR); [contradiction|reflexivity]. }
    specialize (H t Hin). apply Ascii.eqb_eq in H. symmetry. exact H.
  - intros H t Hin. apply filter_In in Hin as [Hs Hn]. apply in_seq in Hs.
    destruct (H t ltac:(lia)) as [E|E].
    + rewrite E, Ascii.eqb_refl in Hn. discriminate.
    + rewrite E. apply Ascii.eqb_refl.
Qed.

Lemma Permutation_filter_same {A} (f : A -> bool) (l l' : list A) :
  Permutation l l' -> Permutation (List.filter f l) (List.filter f l').
Proof.
  induction 1 as [|x l l' H IH|x y l|l l' l'' H1 IH1 H2 IH2]; cbn [List.filter].
  - constructor.
  - destruct (f x); [constructor|]; exact IH.
  - destruct (f x), (f y); [apply perm_swap|reflexivity|reflexivity|reflexivity].
  - etransitivity; eassumption.
Qed.

Lemma perm_map_default {K} `{Countable K} (m m' : gmap K (list Z)) k :
  perm_map m m' -> Permutation (default [] (m !! k)) (default [] (m' !! k)).
Proof.
  intros Hp. specialize (Hp k).
  destruct (m !! k), (m' !! k); cbn; try contradiction; [exact Hp|constructor].
Qed.

Lemma Forall2_perm_lookup (fs fs' : list (gmap Z (list Z))) L :
  Forall2 perm_map fs fs' ->
  match fs !! L, fs' !! L with
  | Some a, Some b => perm_map a b
  | None, None => True
  | _, _ => False
  end.
Proof.
  intros HF; revert L; induction HF as [|a b fs fs' Hab HF IH]; intros [|L]; cbn; auto.
  apply IH.
Qed.

Lemma perm_map_refl {K} `{Countable K} (m : gmap K (list Z)) : perm_map m m.
Proof. intros k. destruct (m !! k); [reflexivity|exact I]. Qed.

Lemma shuffle_refl s : shuffle s s.
Proof.
  split; [reflexivity|]. split; [reflexivity|]. split; [reflexivity|]. split.
  - induction (fastSearch s) as [|m fs IH]; constructor; [apply perm_map_refl|exact IH].
  - apply perm_map_refl.
Qed.

(** A shuffle never changes what a query returns, up to order: on the
    shuffled dictionary [findPossible(p)] is defined exactly when it is
    on the original, and its identifiers are a permutation of the
    original ones (for a cached and for a fresh pattern alike). *)
Theorem findPossible_shuffle s s2 p :
  shuffle s s2 ->
  match findPossible s p, findPossible s2 p with
  | Some (r, _), Some (r2, _) => Permutation r r2
  | None, None => True
  | _, _ => False
  end.
Proof.
  intros (Haw & _ & _ & Hfs & Hc). unfold findPossible. specialize (Hc p).
  destruct (cacheSearchMap s !! p) as [c|], (cacheSearchMap s2 !! p) as [c2|];
    try contradiction; [exact Hc|].
  pose proof (Forall2_perm_lookup _ _ (String.length p) Hfs) as HL.
  destruct (fastSearch s !! String.length p) as [cur|],
           (fastSearch s2 !! String.length p) as [cur2|]; try contradiction; [|exact I].
  pose proof (perm_map_default _ _ (getKey p) HL) as Hn.
  cbv beta iota zeta.
  destruct (String.length p <=? 6)%nat; [exact Hn|].
  unfold getFromIndex. rewrite Haw. apply Permutation_filter_same. exact Hn.
Qed.

(* ------------------------------------------------------------------ *)
(** ** Further properties: loading and queries *)

Section Extras.

Variable LONGEST_WORD : nat.
Variable CYRILLIC_A : Z.

(** On a loaded dictionary of at most 2^16 words, after any queries and
    shuffles, a query [p] shorter than [LONGEST_WORD] is defined and
    returns exactly the identifiers (positions) of the words of length
    [|p|] that agree with [p] on every position that is not a
    placeholder. *)
Theorem findPossible_exact file s0 s p :
  loadDictionary LONGEST_WORD CYRILLIC_A file = Some s0 -> reachable s0 s ->
  Z.of_nat (length (allWords s0)) <= 65536 -> (String.length p < LONGEST_WORD)%nat ->
  exists r s', findPossible s p = Some (r, s') /\
    forall id, In id r <->
      exists i w, allWords s0 !! i = Some w /\ id = Z.of_nat i /\
        String.length w = String.length p /\
        forall t, (t < String.length p)%nat -> char_at p t = ANY_CHAR \/ char_at w t = char_at p t.
Proof.
  intros Hl Hr Hcap HL. destruct (loaded_inv _ _ _ _ _ Hl Hr) as [HI Haw].
  destruct (findPossible_defined _ _ _ HI HL) as (r & s' & Hf).
  exists r, s'. split; [exact Hf|].
  destruct (inv_findPossible _ _ _ _ _ HI Hf) as (_ & _ & Hr').
  intros id. rewrite Hr', Haw. unfold answer, indexed. split.
  - intros [(i & w & Hi & Hid & HLw & Hm) Hpos].
    pose proof (lookup_lt_Some _ _ _ Hi) as Hil.
    assert (Hid' : id = Z.of_nat i) by (rewrite Hid; apply Z.mod_small; lia).
    exists i, w. split; [exact Hi|]. split; [exact Hid'|]. split; [exact HLw|].
    pose proof (proj1 (mask_match w p HLw) Hm) as H6.
    destruct Hpos as [Hle|Hpos].
    + intros t Ht. apply H6. lia.
    + apply isPossible_filled_iff.
      rewrite Hid', Nat2Z.id, (nth_lookup_Some _ _ _ _ Hi) in Hpos. exact Hpos.
  - intros (i & w & Hi & -> & HLw & Hmatch). pose proof (lookup_lt_Some _ _ _ Hi) as Hil. split.
    + exists i, w. split; [exact Hi|]. split; [symmetry; apply Z.mod_small; lia|].
      split; [exact HLw|]. apply (mask_match w p HLw). intros t Ht. apply Hmatch. lia.
    + destruct (Nat.leb_spec (String.length p) 6) as [Hle|Hgt]; [left; exact Hle|right].
      rewrite Nat2Z.id, (nth_lookup_Some _ _ _ _ Hi). apply isPossible_filled_iff. exact Hmatch.
Qed.

(** When the dictionary file cannot be opened, loading leaves an empty
    dictionary: after any queries and shuffles the word table is empty
    and every query shorter than [LONGEST_WORD] returns no identifier. *)
Theorem loadDictionary_no_file s0 s p :
  loadDictionary LONGEST_WORD CYRILLIC_A None = Some s0 -> reachable s0 s ->
  (String.length p < LONGEST_WORD)%nat ->
  allWords s = [] /\ exists s', findPossible s p = Some ([], s').
Proof.
  intros Hl Hr HL. destruct (loaded_inv _ _ _ _ _ Hl Hr) as [HI Haw].
  assert (Hnil : allWords s0 = []) by (cbn [loadDictionary] in Hl; injection Hl as <-; reflexivity).
  split; [congruence|].
  destruct (findPossible_defined _ _ _ HI HL) as (r & s' & Hf). exists s'. rewrite Hf.
  destruct (inv_findPossible _ _ _ _ _ HI Hf) as (_ & _ & Hr').
  destruct r as [|id r]; [reflexivity|exfalso].
  assert (H : In id (id :: r)) by now left. apply Hr' in H.
  destruct H as [(i & w & Hi & _) _]. rewrite Haw, Hnil, lookup_nil in Hi. discriminate.
Qed.

Lemma load_entry_None_iff s e :
  length (fastSearch s) = LONGEST_WORD ->
  load_entry CYRILLIC_A s e = None <->
  (LONGEST_WORD <= String.length (canonical CYRILLIC_A (fst e)))%nat.
Proof.
  intros Hlen. unfold load_entry, addToFastSearch, canonical.
  set (clean := toupper CYRILLIC_A (cleanString CYRILLIC_A (dosToWinCode CYRILLIC_A (fst e)))).
  destruct (fastSearch s !! String.length clean) as [cur|] eqn:E.
  - apply lookup_lt_Some in E. split; [discriminate|lia].
  - apply lookup_ge_None in E. split; [lia|reflexivity].
Qed.

Lemma load_entry_fs_len s e s' :
  load_entry CYRILLIC_A s e = Some s' -> length (fastSearch s') = length (fastSearch s).
Proof.
  unfold load_entry, addToFastSearch.
  set (clean := toupper CYRILLIC_A (cleanString CYRILLIC_A (dosToWinCode CYRILLIC_A (fst e)))).
  destruct (fastSearch s !! String.length clean) as [cur|]; [|discriminate].
  intros H. injection H as <-. cbn [fastSearch]. apply length_insert.
Qed.

(** Loading a dictionary file hits the out-of-range [_fastSearch] index
    (undefined behaviour) exactly when one of its records has a
    canonical word of length at least [LONGEST_WORD]. *)
Theorem loadDictionary_undefined_iff es :
  loadDictionary LONGEST_WORD CYRILLIC_A (Some es) = None <->
  Exists (fun e => (LONGEST_WORD <= String.length (canonical CYRILLIC_A (fst e)))%nat) es.
Proof.
  cbn [loadDictionary].
  assert (H : forall s, length (fastSearch s) = LONGEST_WORD ->
            load_entries CYRILLIC_A s es = None <->
            Exists (fun e => (LONGEST_WORD <= String.length (canonical CYRILLIC_A (fst e)))%nat) es).
  { induction es as [|e es IH]; intros s Hs; cbn [load_entries].
    - split; [discriminate|intros H; inversion H].
    - rewrite Exists_cons. destruct (load_entry CYRILLIC_A s e) as [s1|] eqn:E.
      + rewrite (IH s1) by (rewrite (load_entry_fs_len _ _ _ E); exact Hs).
        assert (Hn : ~ (LONGEST_WORD <= String.length (canonical CYRILLIC_A (fst e)))%nat)
          by (intros Hle; apply (load_entry_None_iff s e Hs) in Hle; congruence).
        tauto.
      + split; [intros _; left; apply (load_entry_None_iff s e Hs); exact E|reflexivity]. }
  apply H. apply repeat_length.
Qed.

Lemma first_entry_some es k :
  first_entry CYRILLIC_A es k <> None <-> In k (map (fun e => canonical CYRILLIC_A (fst e)) es).
Proof.
  unfold first_entry. split.
  - destruct (List.find _ es) as [e|] eqn:E; [|congruence]. intros _.
    apply List.find_some in E as [He Hk]. apply String.eqb_eq in Hk.
    apply in_map_iff. exists e. auto.
  - intros Hin. apply in_map_iff in Hin as (e & Hk & He).
    destruct (List.find _ es) eqn:E; [discriminate|].
    pose proof (List.find_none _ _ E e He) as Hf. cbn beta in Hf.
    rewrite Hk, String.eqb_refl in Hf. discriminate.
Qed.

Lemma loaded_tables es s :
  loadDictionary LONGEST_WORD CYRILLIC_A (Some es) = Some s ->
  allWords s = map (fun e => canonical CYRILLIC_A (fst e)) es /\
  forall k,
    getDirty s k = option_map (fun e => dosToWinCode CYRILLIC_A (fst e)) (first_entry CYRILLIC_A es k) /\
    getExplanation s k = option_map (fun e => dosToWinCode CYRILLIC_A (snd e)) (first_entry CYRILLIC_A es k).
Proof.
  intros Hl. cbn [loadDictionary] in Hl. destruct (load_entries_table _ _ _ _ Hl) as (Haw & Hd & He).
  split; [rewrite Haw; reflexivity|]. intros k. rewrite Hd, He.
  unfold getDirty, getExplanation. cbn [reset_dict dirtyDict explanationDict].
  rewrite !lookup_empty. split; reflexivity.
Qed.

(** After loading a dictionary file, [getDirty(k)] and
    [getExplanation(k)] find an entry exactly for the canonical words
    [k] of the word table; for any other string they fall to the
    [return "";] branch. *)
Theorem loaded_lookups_defined es s k :
  loadDictionary LONGEST_WORD CYRILLIC_A (Some es) = Some s ->
  (getDirty s k <> None <-> In k (allWords s)) /\
  (getExplanation s k <> None <-> In k (allWords s)).
Proof.
  intros Hl. destruct (loaded_tables es s Hl) as (Haw & Ht). destruct (Ht k) as [Hd He].
  rewrite Hd, He, Haw, <- first_entry_some.
  destruct (first_entry CYRILLIC_A es k); cbn [option_map]; split; split; intros H0 H1;
    try discriminate H1; apply H0; reflexivity.
Qed.

(** The surface spelling [getDirty(k)] kept for a loaded word [k]
    normalises back to it: [toupper(cleanString(getDirty(k))) = k]. *)
Theorem getDirty_round_trip es s k d :
  loadDictionary LONGEST_WORD CYRILLIC_A (Some es) = Some s -> getDirty s k = Some d ->
  toupper CYRILLIC_A (cleanString CYRILLIC_A d) = k.
Proof.
  intros Hl H. destruct (loaded_tables es s Hl) as (_ & Ht). destruct (Ht k) as [Hd _].
  rewrite Hd in H. unfold first_entry in H.
  destruct (List.find _ es) as [e|] eqn:E; [|discriminate].
  cbn [option_map] in H. injection H as <-.
  apply List.find_some in E as [_ Hk]. apply String.eqb_eq in Hk. exact Hk.
Qed.

Lemma byte_of_char_of z : 0 <= z < 256 -> byte_of (char_of z) = z.
Proof.
  intros Hz. unfold byte_of, char_of. rewrite Z.mod_small by lia.
  rewrite N_ascii_embedding; [apply Z2N.id; lia|lia].
Qed.

Lemma cleanString_bytes w :
  Forall (fun c => CYRILLIC_A - 32 <= byte_of c) (list_ascii_of_string (cleanString CYRILLIC_A w)).
Proof.
  induction w as [|c w IH]; cbn [cleanString]; [constructor|].
  unfold isalpha. destruct (Z.leb_spec (CYRILLIC_A - 32) (byte_of c)) as [Hc|Hc].
  - cbn [list_ascii_of_string]. constructor; [exact Hc|exact IH].
  - exact IH.
Qed.

Lemma toupper_bytes w :
  224 <= CYRILLIC_A ->
  Forall (fun c => CYRILLIC_A - 32 <= byte_of c) (list_ascii_of_string w) ->
  Forall (fun c => CYRILLIC_A - 32 <= byte_of c < CYRILLIC_A)
         (list_ascii_of_string (toupper CYRILLIC_A w)).
Proof.
  intros Hca. induction w as [|c w IH]; intros H; cbn [toupper list_ascii_of_string]; [constructor|].
  inversion H as [|? ? Hc Hrest]; subst. constructor; [|apply IH; exact Hrest].
  unfold toupper_c. pose proof (byte_of_range c).
  destruct (Z.leb_spec CYRILLIC_A (byte_of c)).
  - rewrite byte_of_char_of by lia. lia.
  - lia.
Qed.

Lemma canonical_fixed_range (w : string) :
  Forall (fun c => CYRILLIC_A - 32 <= byte_of c < CYRILLIC_A) (list_ascii_of_string w) ->
  canonical CYRILLIC_A w = w.
Proof.
  unfold canonical. induction w as [|c w IH]; intros Hw; [reflexivity|].
  inversion Hw as [|? ? Hc Hrest]; subst.
  cbn [dosToWinCode].
  replace ((CYRILLIC_A - 96 <=? byte_of c) && (byte_of c <? CYRILLIC_A - 32)) with false
    by (destruct (Z.ltb_spec (byte_of c) (CYRILLIC_A - 32)); [lia|symmetry; apply andb_false_r]).
  cbn [cleanString]. unfold isalpha.
  replace (CYRILLIC_A - 32 <=? byte_of c) with true by (symmetry; apply Z.leb_le; lia).
  cbn [toupper]. unfold toupper_c.
  replace (CYRILLIC_A <=? byte_of c) with false by (symmetry; apply Z.leb_gt; lia).
  rewrite IH by exact Hrest. reflexivity.
Qed.

(** With [CYRILLIC_A >= 224] (224 is the lower-case a of code page 1251),
    every byte of a canonical word [toupper(cleanString(dosToWinCode(w)))]
    is an upper-case letter code in [CYRILLIC_A - 32, CYRILLIC_A), and
    canonicalising a canonical word changes nothing. *)
Theorem canonical_normal_form w :
  224 <= CYRILLIC_A ->
  Forall (fun c => CYRILLIC_A - 32 <= byte_of c < CYRILLIC_A)
         (list_ascii_of_string (canonical CYRILLIC_A w)) /\
  canonical CYRILLIC_A (canonical CYRILLIC_A w) = canonical CYRILLIC_A w.
Proof.
  intros Hca.
  pose proof (toupper_bytes _ Hca (cleanString_bytes (dosToWinCode CYRILLIC_A w))) as H.
  split; [exact H|]. apply canonical_fixed_range. exact H.
Qed.

End Extras.

(* ------------------------------------------------------------------ *)
(** ** Further properties: the constructors' configuration *)

(** [Dictionary(configFilePath)] gets a dictionary path exactly when
    [configFilePath] itself can be read (its fall-back branch never
    yields one), and then takes it from that file; in particular
    [Dictionary(DEFAULT_CONFIG_PATH)] ends configured exactly as
    [Dictionary()] does. *)
Theorem ctor_configured_iff fs p d :
  (Config.ctor_config fs p = Config.Configured d <->
   exists tree, Config.read_ini fs p = Some tree /\ d = Config.dictionary_path tree) /\
  (Config.ctor_config fs Config.DEFAULT_CONFIG_PATH = Config.Configured d <->
   Config.ctor_default fs = Config.Configured d).
Proof.
  unfold Config.ctor_config, Config.ctor_default. split.
  - destruct (Config.read_ini fs p) as [tree|] eqn:E.
    + split; [intros H; injection H as <-; eauto|intros (t & Ht & ->); injection Ht as ->; reflexivity].
    + split; [destruct (Config.opens fs _); intros H; discriminate H|intros (t & Ht & _); discriminate Ht].
  - destruct (Config.read_ini fs Config.DEFAULT_CONFIG_PATH) eqn:E; [reflexivity|].
    destruct (Config.opens fs _); [split; intros H; discriminate H|reflexivity].
Qed.

(* ------------------------------------------------------------------ *)
(** ** Further properties: slots *)

Module CrosswordMore.
Import Crossword CrosswordFacts.
Local Open Scope nat_scope.





(** Every slot has at least two letters, and each letter is an open
    cell (i, j) of the board, in range, with the linear id [i*M + j]. *)
Theorem loadWords_letters b areas pos :
  loadWords b areas -> In pos areas ->
  2 <= length (letters pos) /\
  forall i j id, In ((i, j), id) (letters pos) ->
    i < N b /\ j < M b /\ isBox b i j = false /\ id = i * M b + j.
Proof.
  intros Hp Hin. apply (Permutation_in _ (Permutation_sym Hp)) in Hin.
  apply areas_unsorted_In in Hin.
  destruct Hin as [(i0 & s & e & Hi & (H1 & H2 & H3 & _ & _) & ->)|
                   (j0 & s & e & Hj & (H1 & H2 & H3 & _ & _) & ->)];
    cbn [letters hslot vslot fst snd]; rewrite length_map, length_seq; (split; [lia|]);
    intros i j id Hl; apply in_map_iff in Hl as (k & Hk & Hks); apply in_seq in Hks;
    injection Hk as <- <- <-; specialize (H3 k ltac:(lia)); cbn beta in H3;
    apply negb_true_iff in H3; repeat split; auto; lia.
Qed.

Lemma maximal_run_overlap L f s e s' e' k :
  maximal_run L f s e -> maximal_run L f s' e' -> s <= k < e -> s' <= k < e' ->
  s = s' /\ e = e'.
Proof.
  intros (A1 & A2 & A3 & A4 & A5) (B1 & B2 & B3 & B4 & B5) Hk Hk'.
  assert (s = s') as <-.
  { destruct (Nat.lt_total s s') as [Hl|[Heq|Hg]]; [|exact Heq|].
    - destruct B4 as [B4|B4]; [lia|]. rewrite A3 in B4 by lia. discriminate.
    - destruct A4 as [A4|A4]; [lia|]. rewrite B3 in A4 by lia. discriminate. }
  split; [reflexivity|].
  destruct (Nat.lt_total e e') as [Hl|[Heq|Hg]]; [|exact Heq|].
  - destruct A5 as [A5|A5]; [lia|]. rewrite B3 in A5 by lia. discriminate.
  - destruct B5 as [B5|B5]; [lia|]. rewrite A3 in B5 by lia. discriminate.
Qed.

(** Two horizontal slots, or two vertical slots, that share a cell are
    the same slot: every cell lies in at most one slot of each
    direction. *)
Theorem loadWords_slots_disjoint b areas pos pos' c :
  loadWords b areas -> In pos areas -> In pos' areas -> hor pos = hor pos' ->
  In c (map fst (letters pos)) -> In c (map fst (letters pos')) -> pos = pos'.
Proof.
  intros Hp Hin Hin' Hh Hc Hc'.
  apply (Permutation_in _ (Permutation_sym Hp)), areas_unsorted_In in Hin.
  apply (Permutation_in _ (Permutation_sym Hp)), areas_unsorted_In in Hin'.
  destruct Hin as [(i & s & e & Hi & Hr & ->)|(j & s & e & Hj & Hr & ->)];
  destruct Hin' as [(i' & s' & e' & Hi' & Hr' & ->)|(j' & s' & e' & Hj' & Hr' & ->)];
    cbn [hor hslot vslot] in Hh; try discriminate Hh;
    cbn [letters hslot vslot fst snd] in Hc, Hc'; rewrite map_map in Hc, Hc';
    apply in_map_iff in Hc as (k & <- & Hk); apply in_map_iff in Hc' as (k' & Hkk & Hk');
    cbn in Hkk; injection Hkk as -> ->; apply in_seq in Hk, Hk'.
  - destruct (maximal_run_overlap _ _ _ _ _ _ k Hr Hr' ltac:(lia) ltac:(lia)) as [-> ->].
    reflexivity.
  - destruct (maximal_run_overlap _ _ _ _ _ _ k Hr Hr' ltac:(lia) ltac:(lia)) as [-> ->].
    reflexivity.
Qed.

End CrosswordMore.

(* ------------------------------------------------------------------ *)
(** ** Witnesses and counterexamples on the example data *)

(** C1 on the example dictionary: the query [KOT] contains its id 0. *)
Lemma findPossible_contains_word_witness :
  loadDictionary ex_LONGEST_WORD ex_CYRILLIC_A (Some ex_entries) = Some ex_dict /\
  exists r s', findPossible ex_dict ex_KOT = Some (r, s') /\ In (Z.of_nat 0) r.
Proof.
  split; [vm_compute; reflexivity|].
  apply (findPossible_contains_word ex_LONGEST_WORD ex_CYRILLIC_A (Some ex_entries)
           ex_dict ex_dict 0%nat ex_KOT).
  - vm_compute. reflexivity.
  - apply rtc_refl.
  - apply Z.leb_le. vm_compute. reflexivity.
  - vm_compute. reflexivity.
Defined.

(** C2 on the example dictionary: the two-unknown pattern. *)
Lemma findPossible_all_unknown_witness :
  loadDictionary ex_LONGEST_WORD ex_CYRILLIC_A (Some ex_entries) = Some ex_dict /\
  exists r s', findPossible ex_dict (unknowns 2) = Some (r, s') /\
    forall id, In id r <->
      exists i w, allWords ex_dict !! i = Some w /\ id = Z.of_nat i /\ String.length w = 2%nat.
Proof.
  split; [vm_compute; reflexivity|].
  apply (findPossible_all_unknown ex_LONGEST_WORD ex_CYRILLIC_A (Some ex_entries)
           ex_dict ex_dict 2%nat).
  - vm_compute. reflexivity.
  - apply rtc_refl.
  - apply Z.leb_le. vm_compute. reflexivity.
  - unfold ex_LONGEST_WORD. lia.
Defined.

(** C3 on the example dictionary: fixing the first letter of [ex_any2]. *)
Lemma findPossible_monotone_witness :
  exists r r' s1' s2',
    findPossible ex_dict ex_D_any = Some (r', s1') /\
    findPossible ex_dict ex_any2 = Some (r, s2') /\
    forall id, In id r' -> In id r.
Proof.
  do 4 eexists. split; [vm_compute; reflexivity|]. split; [vm_compute; reflexivity|].
  eapply (findPossible_monotone ex_LONGEST_WORD ex_CYRILLIC_A (Some ex_entries)
           ex_dict ex_dict ex_dict ex_any2 ex_D_any 0%nat (char_of 196)).
  - vm_compute. reflexivity.
  - apply rtc_refl.
  - apply rtc_refl.
  - cbv. lia.
  - reflexivity.
  - reflexivity.
  - reflexivity.
  - intros [|[|u]] Hu; [contradiction|reflexivity|reflexivity].
  - vm_compute. reflexivity.
  - vm_compute. reflexivity.
Defined.

(** C4 on the example dictionary: a pattern of [LONGEST_WORD] unknowns. *)
Lemma findPossible_too_long_witness :
  loadDictionary ex_LONGEST_WORD ex_CYRILLIC_A (Some ex_entries) = Some ex_dict /\
  findPossible ex_dict (unknowns ex_LONGEST_WORD) = None.
Proof.
  split; [vm_compute; reflexivity|].
  apply (findPossible_too_long ex_LONGEST_WORD ex_CYRILLIC_A (Some ex_entries)).
  - vm_compute. reflexivity.
  - rewrite length_unknowns. lia.
Defined.

(** C7 (as amended) on the file with a duplicate key. *)
Lemma load_first_wins_duplicates_kept_witness :
  loadDictionary ex_LONGEST_WORD ex_CYRILLIC_A (Some ex_dup_entries) = Some ex_dup_dict /\
  allWords ex_dup_dict = map (fun e => canonical ex_CYRILLIC_A (fst e)) ex_dup_entries /\
  (forall k, getDirty ex_dup_dict k =
     option_map (fun e => dosToWinCode ex_CYRILLIC_A (fst e)) (first_entry ex_CYRILLIC_A ex_dup_entries k)) /\
  (forall k, getExplanation ex_dup_dict k =
     option_map (fun e => dosToWinCode ex_CYRILLIC_A (snd e)) (first_entry ex_CYRILLIC_A ex_dup_entries k)) /\
  (forall i w, allWords ex_dup_dict !! i = Some w ->
     In (Z.of_nat i mod 65536) (bucket (fastSearch ex_dup_dict) (String.length w) (getKey w))).
Proof.
  split; [vm_compute; reflexivity|].
  apply (load_first_wins_duplicates_kept ex_LONGEST_WORD ex_CYRILLIC_A).
  vm_compute. reflexivity.
Defined.

(** C7: the later duplicate [KOT] of [kot] leaves a trace: it is appended
    to the word table and its identifier 1 is in the index, while
    [getDirty] and [getExplanation] keep the first record. *)
Lemma load_duplicate_kept :
  canonical ex_CYRILLIC_A ex_kot = canonical ex_CYRILLIC_A ex_KOT /\
  loadDictionary ex_LONGEST_WORD ex_CYRILLIC_A (Some ex_dup_entries) = Some ex_dup_dict /\
  allWords ex_dup_dict = [ex_KOT; ex_KOT] /\
  getDirty ex_dup_dict ex_KOT = Some ex_kot /\
  getExplanation ex_dup_dict ex_KOT = Some "first" /\
  In 1 (bucket (fastSearch ex_dup_dict) 3 (getKey ex_KOT)).
Proof.
  split; [vm_compute; reflexivity|]. split; [vm_compute; reflexivity|].
  split; [vm_compute; reflexivity|]. split; [vm_compute; reflexivity|].
  split; [vm_compute; reflexivity|].
  vm_compute. tauto.
Qed.

(** C8 on the example dictionary: the query [KOT] repeated. *)
Lemma findPossible_idempotent_witness :
  exists r1 s1 r2 s3,
    findPossible ex_dict ex_KOT = Some (r1, s1) /\
    findPossible s1 ex_KOT = Some (r2, s3) /\
    Permutation r1 r2 /\ (forall id, In id r1 <-> In id r2).
Proof.
  do 4 eexists. split; [vm_compute; reflexivity|]. split; [vm_compute; reflexivity|].
  eapply (findPossible_idempotent ex_dict ex_KOT).
  - vm_compute. reflexivity.
  - left. reflexivity.
  - vm_compute. reflexivity.
Defined.

(** C9 on the open 1x3 grid. *)
Lemma loadWords_slots_witness :
  Crossword.loadWords (Crossword.open_board 1 3)
    (Crossword.areas_unsorted (Crossword.open_board 1 3)) /\
  Crossword.areas_unsorted (Crossword.open_board 1 3) =
    [Crossword.hslot (Crossword.open_board 1 3) 0 (0, 3)]%nat.
Proof.
  split; [apply Permutation_refl|].
  destruct (CrosswordFacts.loadWords_slots (Crossword.open_board 1 3) _ (Permutation_refl _))
    as (_ & _ & _ & H).
  apply H; [reflexivity|cbn; lia|intros k _; reflexivity].
Defined.

(** C10 on the upper-case word [KOT]. *)
Lemma canonical_uppercase_fixed_witness :
  Forall (fun c => ex_CYRILLIC_A - 32 <= byte_of c < ex_CYRILLIC_A) (list_ascii_of_string ex_KOT) /\
  canonical ex_CYRILLIC_A ex_KOT = ex_KOT.
Proof.
  assert (H : Forall (fun c => ex_CYRILLIC_A - 32 <= byte_of c < ex_CYRILLIC_A)
                (list_ascii_of_string ex_KOT)).
  { repeat constructor; vm_compute; discriminate. }
  split; [exact H|]. apply (canonical_uppercase_fixed ex_CYRILLIC_A ex_KOT H).
Defined.

(* ------------------------------------------------------------------ *)
(** ** Example instances of the further properties *)

Lemma getKey_eq_iff_witness :
  String.length ex_KOT = String.length ex_kot /\
  (getKey ex_KOT = getKey ex_kot <->
   forall t, (t < Nat.min (String.length ex_KOT) 6)%nat -> char_at ex_KOT t = char_at ex_kot t).
Proof.
  split; [reflexivity|]. apply getKey_eq_iff. reflexivity.
Defined.

Lemma findPossible_shuffle_witness :
  shuffle ex_dict ex_dict /\
  match findPossible ex_dict ex_any2, findPossible ex_dict ex_any2 with
  | Some (r, _), Some (r2, _) => Permutation r r2
  | None, None => True
  | _, _ => False
  end.
Proof.
  split; [apply shuffle_refl|]. apply findPossible_shuffle. apply shuffle_refl.
Defined.

Lemma findPossible_exact_witness :
  loadDictionary ex_LONGEST_WORD ex_CYRILLIC_A (Some ex_entries) = Some ex_dict /\
  exists r s', findPossible ex_dict ex_D_any = Some (r, s') /\
    forall id, In id r <->
      exists i w, allWords ex_dict !! i = Some w /\ id = Z.of_nat i /\
        String.length w = String.length ex_D_any /\
        forall t, (t < String.length ex_D_any)%nat ->
          char_at ex_D_any t = ANY_CHAR \/ char_at w t = char_at ex_D_any t.
Proof.
  split; [vm_compute; reflexivity|].
  apply (findPossible_exact ex_LONGEST_WORD ex_CYRILLIC_A (Some ex_entries) ex_dict ex_dict ex_D_any).
  - vm_compute. reflexivity.
  - apply rtc_refl.
  - apply Z.leb_le. vm_compute. reflexivity.
  - apply Nat.ltb_lt. vm_compute. reflexivity.
Defined.

Lemma loadDictionary_no_file_witness :
  loadDictionary ex_LONGEST_WORD ex_CYRILLIC_A None = Some (reset_dict ex_LONGEST_WORD) /\
  allWords (reset_dict ex_LONGEST_WORD) = [] /\
  exists s', findPossible (reset_dict ex_LONGEST_WORD) ex_KOT = Some ([], s').
Proof.
  split; [reflexivity|].
  apply (loadDictionary_no_file ex_LONGEST_WORD ex_CYRILLIC_A (reset_dict ex_LONGEST_WORD)).
  - reflexivity.
  - apply rtc_refl.
  - apply Nat.ltb_lt. vm_compute. reflexivity.
Defined.

Lemma loaded_lookups_defined_witness :
  loadDictionary ex_LONGEST_WORD ex_CYRILLIC_A (Some ex_dup_entries) = Some ex_dup_dict /\
  (getDirty ex_dup_dict ex_KOT <> None <-> In ex_KOT (allWords ex_dup_dict)) /\
  (getExplanation ex_dup_dict ex_KOT <> None <-> In ex_KOT (allWords ex_dup_dict)).
Proof.
  split; [vm_compute; reflexivity|].
  apply (loaded_lookups_defined ex_LONGEST_WORD ex_CYRILLIC_A ex_dup_entries).
  vm_compute. reflexivity.
Defined.

Lemma getDirty_round_trip_witness :
  loadDictionary ex_LONGEST_WORD ex_CYRILLIC_A (Some ex_dup_entries) = Some ex_dup_dict /\
  getDirty ex_dup_dict ex_KOT = Some ex_kot /\
  toupper ex_CYRILLIC_A (cleanString ex_CYRILLIC_A ex_kot) = ex_KOT.
Proof.
  split; [vm_compute; reflexivity|]. split; [vm_compute; reflexivity|].
  apply (getDirty_round_trip ex_LONGEST_WORD ex_CYRILLIC_A ex_dup_entries ex_dup_dict).
  - vm_compute. reflexivity.
  - vm_compute. reflexivity.
Defined.

Lemma canonical_normal_form_witness :
  224 <= ex_CYRILLIC_A /\
  Forall (fun c => ex_CYRILLIC_A - 32 <= byte_of c < ex_CYRILLIC_A)
         (list_ascii_of_string (canonical ex_CYRILLIC_A ex_kot)) /\
  canonical ex_CYRILLIC_A (canonical ex_CYRILLIC_A ex_kot) = canonical ex_CYRILLIC_A ex_kot.
Proof.
  split; [vm_compute; discriminate|]. apply canonical_normal_form. vm_compute. discriminate.
Defined.


Lemma loadWords_letters_witness :
  let b := Crossword.open_board 2 3 in
  let pos := Crossword.hslot b 1 (0, 3)%nat in
  Crossword.loadWords b (Crossword.areas_unsorted b) /\ In pos (Crossword.areas_unsorted b) /\
  (2 <= length (Crossword.letters pos))%nat /\
  forall i j id, In ((i, j), id) (Crossword.letters pos) ->
    (i < Crossword.N b /\ j < Crossword.M b /\ Crossword.isBox b i j = false /\
     id = i * Crossword.M b + j)%nat.
Proof.
  cbv zeta. split; [apply Permutation_refl|]. split; [vm_compute; tauto|].
  apply (CrosswordMore.loadWords_letters (Crossword.open_board 2 3) (Crossword.areas_unsorted (Crossword.open_board 2 3))).
  - apply Permutation_refl.
  - vm_compute. tauto.
Defined.

Lemma loadWords_slots_disjoint_witness :
  let b := Crossword.open_board 2 3 in
  let pos := Crossword.hslot b 1 (0, 3)%nat in
  Crossword.loadWords b (Crossword.areas_unsorted b) /\ In pos (Crossword.areas_unsorted b) /\
  In (1, 2)%nat (map fst (Crossword.letters pos)) /\ pos = pos.
Proof.
  cbv zeta. split; [apply Permutation_refl|]. split; [vm_compute; tauto|].
  split; [vm_compute; tauto|].
  apply (CrosswordMore.loadWords_slots_disjoint (Crossword.open_board 2 3) (Crossword.areas_unsorted (Crossword.open_board 2 3))
           _ _ (1, 2)%nat).
  - apply Permutation_refl.
  - vm_compute. tauto.
  - vm_compute. tauto.
  - reflexivity.
  - vm_compute. tauto.
  - vm_compute. tauto.
Defined.
